(** * A coarse-grained hash set: model of [src/hash_set_coarse_grained.h]

    The class [HashSetCoarseGrained<T>] is a bucketed hash table
    ([std::vector<std::vector<T>> table_]) with an element counter
    ([std::atomic<size_t> set_size_]); every public operation runs under one
    [std::scoped_lock].  This development models one thread at a time: an
    operation is a function from the state before the call to the returned
    value and the state after it, which is what the lock makes of every call.

    - [size_t] values are integers in [Z], the wrap-around of [fetch_add],
      [fetch_sub] and of [table_.size() * 2] written out with [wrap];
    - a [std::vector] is a [list]; [table_.size()] is the length of the list;
    - [operator==] of the element type is [eqb], [std::hash<T>] is [hash];
    - [x % 0] is undefined behaviour in C++: an operation that would evaluate
      it returns [None]. *)

From Stdlib Require Import ZArith List Bool Lia Permutation SetoidList.
Import ListNotations.
Local Open Scope Z_scope.

(** ** [size_t] arithmetic *)

Definition size_modulus : Z := 2 ^ 64.

Definition wrap (z : Z) : Z := z mod size_modulus.

(** ** Undefined behaviour as [None] *)

Definition bind {A B : Type} (c : option A) (k : A -> option B) : option B :=
  match c with
  | Some a => k a
  | None => None
  end.

Notation "x <- c ;; k" := (bind c (fun x => k))
  (at level 61, c at next level, right associativity).

(** ** Outcomes of code that allocates

    The sites at which [Resize] allocates, and the three ways such code can
    end: it completes, [std::bad_alloc] is thrown, or it has undefined
    behaviour. *)

Inductive alloc_site : Type :=
| NewTableAlloc
| BucketCopyAlloc (b : nat)
| PushBackAlloc (b k : nat)
| AssignAlloc.

Inductive attempt (A : Type) : Type :=
| Completed (a : A)
| BadAlloc
| Undefined.

Arguments Completed {A} a.
Arguments BadAlloc {A}.
Arguments Undefined {A}.

Section HashSetCoarseGrained.

(** The template parameter, its [operator==] and its [std::hash]. *)
Variable T : Type.
Variable eqb : T -> T -> bool.
Variable hash : T -> Z.

(** The data members [set_size_] and [table_] ([mutex_] carries no data). *)
Record HashSet : Type := MkHashSet {
  set_size_ : Z;
  table_ : list (list T)
}.

(** [const size_t bucket_capacity_ = 4;] *)
Definition bucket_capacity_ : Z := 4.

(** [table_.size()] *)
Definition capacity (s : HashSet) : Z := Z.of_nat (length (table_ s)).

(** The elements found by scanning every bucket in order. *)
Definition elements (s : HashSet) : list T := concat (table_ s).

(** [HashSetCoarseGrained(size_t initial_capacity)
      : set_size_(0), table_(initial_capacity) {}]
    The object the member initialisers build when the constructor of
    [std::vector] returns; [construct] below is the call itself. *)
Definition HashSetCoarseGrained (initial_capacity : nat) : HashSet :=
  {| set_size_ := 0; table_ := repeat [] initial_capacity |}.

(** The ways a call of the constructor can end. *)
Inductive construction : Type :=
| Constructed (s : HashSet)
| LengthError
| ConstructionBadAlloc.

(** A call [HashSetCoarseGrained<T>(initial_capacity)], its argument a
    [size_t].  The class checks nothing itself; [table_(initial_capacity)]
    is the constructor of [std::vector], which throws [std::length_error]
    when the size exceeds [max_size()], a constant of the implementation,
    and [std::bad_alloc] when the storage for the buckets cannot be
    allocated.  No storage is requested for zero buckets. *)
Definition construct (max_size : Z) (alloc_fails : bool)
           (initial_capacity : Z) : construction :=
  if max_size <? initial_capacity then LengthError
  else if (0 <? initial_capacity) && alloc_fails then ConstructionBadAlloc
  else Constructed (HashSetCoarseGrained (Z.to_nat initial_capacity)).

(** [std::hash<T>()(elem) % n] as an index into a vector of [n] buckets. *)
Definition bucket_index (n : Z) (elem : T) : option nat :=
  if n =? 0 then None else Some (Z.to_nat (hash elem mod n)).

(** [tbl[i] = f(tbl[i])]; the index is always in range in the source,
    since it is a remainder modulo the length. *)
Fixpoint update_bucket (f : list T -> list T) (i : nat)
         (tbl : list (list T)) : list (list T) :=
  match tbl, i with
  | [], _ => []
  | b :: rest, O => f b :: rest
  | b :: rest, S j => b :: update_bucket f j rest
  end.

(** [bucket.push_back(elem)] *)
Definition push_back (elem : T) (bucket : list T) : list T := bucket ++ [elem].

(** [bucket.erase(std::remove(bucket.begin(), bucket.end(), elem), bucket.end())] *)
Definition erase_remove (elem : T) (bucket : list T) : list T :=
  filter (fun y => negb (eqb y elem)) bucket.

(** [std::find(bucket.begin(), bucket.end(), elem) != bucket.end()] *)
Definition find_in (elem : T) (bucket : list T) : bool :=
  existsb (fun y => eqb y elem) bucket.

(** [bool Contains_(T elem)] *)
Definition Contains_ (s : HashSet) (elem : T) : option bool :=
  i <- bucket_index (capacity s) elem ;;
  Some (find_in elem (nth i (table_ s) [])).

(** [bool Policy() { return set_size_ / table_.size() > bucket_capacity_; }]
    Both operands are unsigned, so the division truncates. *)
Definition Policy (s : HashSet) : option bool :=
  if capacity s =? 0 then None
  else Some (bucket_capacity_ <? set_size_ s / capacity s).

(** One iteration of the inner loop of [Resize]. *)
Definition rehash_elem (new_table : option (list (list T))) (elem : T)
  : option (list (list T)) :=
  nt <- new_table ;;
  i <- bucket_index (Z.of_nat (length nt)) elem ;;
  Some (update_bucket (push_back elem) i nt).

(** One iteration of the outer loop of [Resize]. *)
Definition rehash_bucket (new_table : option (list (list T))) (bucket : list T)
  : option (list (list T)) :=
  fold_left rehash_elem bucket new_table.

(** [void Resize()] *)
Definition Resize (s : HashSet) : option HashSet :=
  let new_size := wrap (capacity s * 2) in
  let new_table := repeat [] (Z.to_nat new_size) in
  nt <- fold_left rehash_bucket (table_ s) (Some new_table) ;;
  Some {| set_size_ := set_size_ s; table_ := nt |}.

(** The two statements of [Add] between the membership test and the policy
    check: [table_[bucket_index].push_back(elem); set_size_.fetch_add(1);] *)
Definition insert_at (s : HashSet) (i : nat) (elem : T) : HashSet :=
  {| set_size_ := wrap (set_size_ s + 1);
     table_ := update_bucket (push_back elem) i (table_ s) |}.

(** [bool Add(T elem)] *)
Definition Add (s : HashSet) (elem : T) : option (bool * HashSet) :=
  present <- Contains_ s elem ;;
  if present then Some (false, s)
  else
    i <- bucket_index (capacity s) elem ;;
    let s1 := insert_at s i elem in
    grow <- Policy s1 ;;
    if grow then (s2 <- Resize s1 ;; Some (true, s2))
    else Some (true, s1).

(** The two statements of [Remove] after the membership test. *)
Definition erase_at (s : HashSet) (i : nat) (elem : T) : HashSet :=
  {| set_size_ := wrap (set_size_ s - 1);
     table_ := update_bucket (erase_remove elem) i (table_ s) |}.

(** [bool Remove(T elem)] *)
Definition Remove (s : HashSet) (elem : T) : option (bool * HashSet) :=
  present <- Contains_ s elem ;;
  if negb present then Some (false, s)
  else
    i <- bucket_index (capacity s) elem ;;
    Some (true, erase_at s i elem).

(** [bool Contains(T elem)] *)
Definition Contains (s : HashSet) (elem : T) : option bool := Contains_ s elem.

(** [size_t Size() const] *)
Definition Size (s : HashSet) : Z := set_size_ s.

(** The bucket of [elem] under the current capacity, when there is one:
    [std::hash<T>()(elem) % table_.size()] as an index. *)
Definition home (s : HashSet) (elem : T) : nat :=
  Z.to_nat (hash elem mod capacity s).

(** ** Sequences of calls on one thread *)

Inductive op : Type :=
| OpAdd (elem : T)
| OpRemove (elem : T)
| OpContains (elem : T).

Definition step (s : HashSet) (o : op) : option HashSet :=
  match o with
  | OpAdd elem => r <- Add s elem ;; Some (snd r)
  | OpRemove elem => r <- Remove s elem ;; Some (snd r)
  | OpContains elem => _ <- Contains s elem ;; Some s
  end.

Fixpoint run (ops : list op) (s : HashSet) : option HashSet :=
  match ops with
  | [] => Some s
  | o :: rest => s' <- step s o ;; run rest s'
  end.


(** A call together with the value it returns. *)
Definition call (s : HashSet) (o : op) : option (bool * HashSet) :=
  match o with
  | OpAdd elem => Add s elem
  | OpRemove elem => Remove s elem
  | OpContains elem => b <- Contains s elem ;; Some (b, s)
  end.

(** The values returned by a sequence of calls, and the state it leaves. *)
Fixpoint run_results (ops : list op) (s : HashSet)
  : option (list bool * HashSet) :=
  match ops with
  | [] => Some ([], s)
  | o :: rest =>
      r <- call s o ;;
      rs <- run_results rest (snd r) ;;
      Some (fst r :: fst rs, snd rs)
  end.

(** ** A reference set

    The set as a list without equal elements, searched from end to end:
    what the buckets are meant to be a faster version of. *)

Definition ref_call (l : list T) (o : op) : bool * list T :=
  match o with
  | OpAdd y => if find_in y l then (false, l) else (true, l ++ [y])
  | OpRemove y => if find_in y l then (true, erase_remove y l) else (false, l)
  | OpContains y => (find_in y l, l)
  end.

Fixpoint ref_results (ops : list op) (l : list T) : list bool * list T :=
  match ops with
  | [] => ([], l)
  | o :: rest =>
      let r := ref_call l o in
      let rs := ref_results rest (snd r) in
      (fst r :: fst rs, snd rs)
  end.

(** ** Allocation failure inside [Resize]

    [Resize] allocates in four places: the constructor of [new_table], the
    copy of each bucket made by [for (auto bucket : table_)], each
    [push_back], and the copy assignment [table_ = new_table] (its right-hand
    side is an lvalue, so the buckets are copied, after [table_.clear()]).
    [fails site] says whether the allocation at [site] throws
    [std::bad_alloc]; nothing in the class catches it.  Any site may be made
    to fail here, also a [push_back] that would have found room; the copy
    assignment has to allocate whenever [new_table] has a bucket, since
    [new_table] has twice as many buckets as [table_] was built with. *)

(** The inner loop over the elements of bucket number [b], from element [k]. *)
Fixpoint rehash_bucket_alloc (fails : alloc_site -> bool) (b k : nat)
         (bucket : list T) (nt : list (list T)) : attempt (list (list T)) :=
  match bucket with
  | [] => Completed nt
  | elem :: rest =>
      match bucket_index (Z.of_nat (length nt)) elem with
      | None => Undefined
      | Some i =>
          if fails (PushBackAlloc b k) then BadAlloc
          else rehash_bucket_alloc fails b (S k) rest
                 (update_bucket (push_back elem) i nt)
      end
  end.

(** The outer loop over the buckets, from bucket number [b]. *)
Fixpoint rehash_table_alloc (fails : alloc_site -> bool) (b : nat)
         (tbl : list (list T)) (nt : list (list T)) : attempt (list (list T)) :=
  match tbl with
  | [] => Completed nt
  | bucket :: rest =>
      if fails (BucketCopyAlloc b) then BadAlloc
      else
        match rehash_bucket_alloc fails b 0 bucket nt with
        | Completed nt' => rehash_table_alloc fails (S b) rest nt'
        | BadAlloc => BadAlloc
        | Undefined => Undefined
        end
  end.

(** What [Resize] leaves in the object: [ResizeReturned s] when it returns,
    [ResizeThrew s] when [std::bad_alloc] leaves it with the object in
    state [s]. *)
Inductive resize_outcome : Type :=
| ResizeReturned (s : HashSet)
| ResizeThrew (s : HashSet)
| ResizeUndefined.

Definition Resize_alloc (fails : alloc_site -> bool) (s : HashSet)
  : resize_outcome :=
  let new_size := wrap (capacity s * 2) in
  if fails NewTableAlloc then ResizeThrew s
  else
    match rehash_table_alloc fails 0 (table_ s)
            (repeat [] (Z.to_nat new_size)) with
    | Undefined => ResizeUndefined
    | BadAlloc => ResizeThrew s
    | Completed nt =>
        (* table_.clear(); *)
        let cleared := {| set_size_ := set_size_ s; table_ := [] |} in
        (* table_ = new_table; *)
        if fails AssignAlloc then ResizeThrew cleared
        else ResizeReturned {| set_size_ := set_size_ s; table_ := nt |}
    end.

(** ** The data-model invariants *)

(** Equality of elements as the set sees it. *)
Definition same (a b : T) : Prop := eqb a b = true.

(** Every element sits in the bucket its hash selects under the length of
    the table. *)
Definition placed_table (tbl : list (list T)) : Prop :=
  forall (i : nat) (e : T),
    In e (nth i tbl []) -> hash e mod Z.of_nat (length tbl) = Z.of_nat i.

Definition placed (s : HashSet) : Prop := placed_table (table_ s).

(** No two equal elements are stored. *)
Definition distinct (s : HashSet) : Prop := NoDupA same (elements s).

(** The counter is the number of stored elements. *)
Definition counted (s : HashSet) : Prop :=
  set_size_ s = Z.of_nat (length (elements s)).

Record Inv (s : HashSet) : Prop := MkInv {
  inv_capacity : 0 < capacity s;
  inv_placed : placed s;
  inv_distinct : distinct s;
  inv_counted : counted s;
  inv_range : set_size_ s < size_modulus
}.

(** ** The membership a sequence of calls should leave

    [x] is in the set after [ops] when the last [Add] or [Remove] of an
    element equal to [x] is an [Add]. *)

Definition net_effect (x : T) (present : bool) (o : op) : bool :=
  match o with
  | OpAdd y => if eqb y x then true else present
  | OpRemove y => if eqb y x then false else present
  | OpContains _ => present
  end.

Definition net_present (x : T) (ops : list op) : bool :=
  fold_left (net_effect x) ops false.

(** The same, said with the positions of the calls: some call adds an
    element equal to [x], and no later call removes one. *)

Definition adds (x : T) (o : op) : bool :=
  match o with
  | OpAdd y => eqb y x
  | _ => false
  end.

Definition removes (x : T) (o : op) : bool :=
  match o with
  | OpRemove y => eqb y x
  | _ => false
  end.

Definition never_removes (x : T) (ops : list op) : bool :=
  forallb (fun o => negb (removes x o)) ops.

Definition added_and_kept (x : T) (ops : list op) : Prop :=
  exists pre o post,
    ops = pre ++ o :: post /\ adds x o = true /\ never_removes x post = true.

(** ** Lists of buckets *)

Lemma update_bucket_length (f : list T -> list T) (i : nat) (tbl : list (list T)) :
  length (update_bucket f i tbl) = length tbl.
Proof.
  revert i; induction tbl as [|b rest IH]; intros [|j]; simpl; auto.
Qed.

Lemma nth_update_bucket_same (f : list T -> list T) (i : nat) (tbl : list (list T)) :
  (i < length tbl)%nat ->
  nth i (update_bucket f i tbl) [] = f (nth i tbl []).
Proof.
  revert i; induction tbl as [|b rest IH]; intros [|j] Hlt; simpl in *;
    try lia; auto.
  apply IH; lia.
Qed.

Lemma nth_update_bucket_other (f : list T -> list T) (i j : nat) (tbl : list (list T)) :
  i <> j ->
  nth j (update_bucket f i tbl) [] = nth j tbl [].
Proof.
  revert i j; induction tbl as [|b rest IH]; intros [|i] [|j] Hne; simpl;
    try congruence; auto.
Qed.

Lemma concat_push_back (e : T) (i : nat) (tbl : list (list T)) :
  (i < length tbl)%nat ->
  Permutation (concat (update_bucket (push_back e) i tbl)) (e :: concat tbl).
Proof.
  revert i; induction tbl as [|b rest IH]; intros [|j] Hlt; simpl in *; try lia.
  - unfold push_back. rewrite <- app_assoc. simpl.
    symmetry. apply Permutation_middle.
  - rewrite (IH j) by lia. symmetry. apply Permutation_middle.
Qed.

Lemma in_concat_nth (e : T) (tbl : list (list T)) :
  In e (concat tbl) <-> exists i, In e (nth i tbl []).
Proof.
  rewrite in_concat. split.
  - intros (b & Hb & He). destruct (In_nth _ _ [] Hb) as (i & _ & Hi).
    exists i. now rewrite Hi.
  - intros (i & He). destruct (Nat.lt_ge_cases i (length tbl)) as [Hlt|Hge].
    + exists (nth i tbl []). split; auto using nth_In.
    + rewrite nth_overflow in He by lia. destruct He.
Qed.

(** ** Bucket indices *)

Lemma bucket_index_pos (n : Z) (e : T) :
  0 < n -> bucket_index n e = Some (Z.to_nat (hash e mod n)).
Proof.
  intros Hn. unfold bucket_index.
  destruct (Z.eqb_spec n 0); [lia | reflexivity].
Qed.

Lemma bucket_index_inv (len : nat) (e : T) (i : nat) :
  bucket_index (Z.of_nat len) e = Some i ->
  (i < len)%nat /\ Z.of_nat i = hash e mod Z.of_nat len.
Proof.
  unfold bucket_index. destruct (Z.eqb_spec (Z.of_nat len) 0) as [|Hne];
    [discriminate|].
  intros [= <-].
  pose proof (Z.mod_pos_bound (hash e) (Z.of_nat len) ltac:(lia)). lia.
Qed.

Lemma bucket_index_defined (n : Z) (e : T) (i : nat) :
  bucket_index n e = Some i -> n <> 0.
Proof.
  unfold bucket_index. destruct (Z.eqb_spec n 0); [discriminate | auto].
Qed.

(** ** Rehashing *)

Lemma placed_table_empty (n : nat) : placed_table (repeat [] n).
Proof.
  intros i e He. rewrite nth_repeat in He. destruct He.
Qed.

Lemma concat_repeat_nil (n : nat) : concat (repeat (@nil T) n) = [].
Proof.
  induction n as [|n IH]; simpl; auto.
Qed.

Lemma placed_table_push (e : T) (i : nat) (tbl : list (list T)) :
  placed_table tbl ->
  bucket_index (Z.of_nat (length tbl)) e = Some i ->
  placed_table (update_bucket (push_back e) i tbl).
Proof.
  intros Hp Hi j x Hx. rewrite update_bucket_length.
  destruct (bucket_index_inv _ _ _ Hi) as [Hlt Hmod].
  destruct (Nat.eq_dec i j) as [<-|Hne].
  - rewrite nth_update_bucket_same in Hx by assumption.
    unfold push_back in Hx. apply in_app_or in Hx as [Hx|[<-|[]]]; auto.
  - rewrite nth_update_bucket_other in Hx by assumption. auto.
Qed.

Lemma rehash_elem_None (l : list T) : fold_left rehash_elem l None = None.
Proof.
  induction l as [|e l IH]; simpl; auto.
Qed.

Lemma rehash_bucket_None (tbl : list (list T)) :
  fold_left rehash_bucket tbl None = None.
Proof.
  induction tbl as [|b tbl IH]; simpl; auto.
  unfold rehash_bucket at 2. now rewrite rehash_elem_None.
Qed.

(** The inner loop moves the elements of one bucket, and nothing else. *)
Lemma rehash_bucket_spec (l : list T) (nt : list (list T)) :
  (0 < length nt)%nat ->
  exists nt',
    rehash_bucket (Some nt) l = Some nt' /\
    length nt' = length nt /\
    Permutation (concat nt') (concat nt ++ l) /\
    (placed_table nt -> placed_table nt').
Proof.
  unfold rehash_bucket. revert nt.
  induction l as [|e l IH]; intros nt Hlen; simpl.
  - exists nt. rewrite app_nil_r. auto.
  - rewrite bucket_index_pos by lia. simpl.
    set (i := Z.to_nat (hash e mod Z.of_nat (length nt))).
    assert (Hi : bucket_index (Z.of_nat (length nt)) e = Some i)
      by (apply bucket_index_pos; lia).
    destruct (bucket_index_inv _ _ _ Hi) as [Hlt _].
    destruct (IH (update_bucket (push_back e) i nt)) as (nt' & Hrun & Hl & Hperm & Hpl).
    { rewrite update_bucket_length. assumption. }
    exists nt'. repeat split.
    + assumption.
    + now rewrite Hl, update_bucket_length.
    + rewrite Hperm, (concat_push_back e i nt Hlt).
      simpl. apply Permutation_middle.
    + intros Hp. apply Hpl. now apply placed_table_push.
Qed.

(** The outer loop moves the elements of every bucket. *)
Lemma rehash_table_spec (tbl nt : list (list T)) :
  (0 < length nt)%nat ->
  exists nt',
    fold_left rehash_bucket tbl (Some nt) = Some nt' /\
    length nt' = length nt /\
    Permutation (concat nt') (concat nt ++ concat tbl) /\
    (placed_table nt -> placed_table nt').
Proof.
  revert nt. induction tbl as [|b tbl IH]; intros nt Hlen; simpl.
  - exists nt. rewrite app_nil_r. auto.
  - destruct (rehash_bucket_spec b nt Hlen) as (nt1 & Hrun1 & Hl1 & Hperm1 & Hpl1).
    rewrite Hrun1.
    destruct (IH nt1) as (nt' & Hrun & Hl & Hperm & Hpl); [lia|].
    exists nt'. repeat split.
    + assumption.
    + congruence.
    + rewrite Hperm, Hperm1. now rewrite app_assoc.
    + auto.
Qed.

Lemma Resize_spec (s : HashSet) :
  0 < wrap (capacity s * 2) ->
  exists s',
    Resize s = Some s' /\
    capacity s' = wrap (capacity s * 2) /\
    set_size_ s' = set_size_ s /\
    Permutation (elements s') (elements s) /\
    placed s'.
Proof.
  intros Hpos. unfold Resize.
  destruct (rehash_table_spec (table_ s) (repeat [] (Z.to_nat (wrap (capacity s * 2)))))
    as (nt & Hrun & Hl & Hperm & Hpl).
  { rewrite repeat_length. lia. }
  rewrite Hrun. simpl. eexists. split; [reflexivity|].
  unfold capacity, elements, placed; simpl. repeat split.
  - rewrite Hl, repeat_length. fold (capacity s). lia.
  - now rewrite Hperm, concat_repeat_nil.
  - apply Hpl, placed_table_empty.
Qed.

(** [Resize] never writes the counter. *)
Lemma Resize_set_size (s s' : HashSet) :
  Resize s = Some s' -> set_size_ s' = set_size_ s.
Proof.
  unfold Resize.
  destruct (fold_left rehash_bucket (table_ s) _) as [nt|]; simpl;
    [intros [= <-]; reflexivity | discriminate].
Qed.

(** ** The resize policy *)

Lemma wrap_range (z : Z) : 0 <= wrap z < size_modulus.
Proof.
  unfold wrap, size_modulus. apply Z.mod_pos_bound. reflexivity.
Qed.

Lemma wrap_small (z : Z) : 0 <= z < size_modulus -> wrap z = z.
Proof.
  unfold wrap. apply Z.mod_small.
Qed.

Lemma Policy_pos (s : HashSet) :
  0 < capacity s ->
  Policy s = Some (bucket_capacity_ <? set_size_ s / capacity s).
Proof.
  intros Hc. unfold Policy. destruct (Z.eqb_spec (capacity s) 0); [lia|reflexivity].
Qed.

(** When the policy fires on a counter that is a [size_t], doubling the
    number of buckets does not overflow. *)
Lemma Policy_no_overflow (size cap : Z) :
  0 < cap -> 0 <= size < size_modulus ->
  bucket_capacity_ < size / cap ->
  wrap (cap * 2) = cap * 2.
Proof.
  unfold bucket_capacity_. intros Hc Hs Hp.
  apply wrap_small.
  pose proof (Z.mul_div_le size cap Hc). nia.
Qed.

(** ** The hashing and equality contract of the element type

    [operator==] is an equivalence and equal elements have equal hashes.
    Each lemma below depends only on the parts it uses. *)

Hypothesis eqb_refl : forall a : T, eqb a a = true.
Hypothesis eqb_sym : forall a b : T, eqb a b = true -> eqb b a = true.
Hypothesis eqb_trans :
  forall a b c : T, eqb a b = true -> eqb b c = true -> eqb a c = true.
Hypothesis hash_eqb : forall a b : T, eqb a b = true -> hash a = hash b.

(** ** Searching a bucket *)

Lemma find_in_iff (x : T) (l : list T) :
  find_in x l = true <-> exists y, In y l /\ eqb y x = true.
Proof.
  unfold find_in. apply existsb_exists.
Qed.

Lemma find_in_app (x : T) (l l' : list T) :
  find_in x (l ++ l') = find_in x l || find_in x l'.
Proof.
  unfold find_in. apply existsb_app.
Qed.

Lemma bool_eq_iff (a b : bool) : (a = true <-> b = true) -> a = b.
Proof.
  destruct a, b; intuition congruence.
Qed.

Lemma find_in_incl (x : T) (l l' : list T) :
  (forall y, In y l -> In y l') -> find_in x l = true -> find_in x l' = true.
Proof.
  intros Hincl. rewrite !find_in_iff. intros (y & Hy & He). eauto.
Qed.

Lemma find_in_perm (x : T) (l l' : list T) :
  Permutation l l' -> find_in x l = find_in x l'.
Proof.
  intros Hp. apply bool_eq_iff. split; apply find_in_incl; intros y.
  - apply Permutation_in. assumption.
  - apply Permutation_in. symmetry. assumption.
Qed.

Lemma find_in_same (x y : T) (l : list T) :
  eqb x y = true -> find_in x l = find_in y l.
Proof using eqb_sym eqb_trans.
  intros Hxy. apply bool_eq_iff. rewrite !find_in_iff.
  split; intros (z & Hz & He); exists z; split; eauto.
Qed.

Lemma find_in_InA (x : T) (l : list T) :
  find_in x l = true <-> InA same x l.
Proof using eqb_sym.
  rewrite find_in_iff, InA_alt. unfold same.
  split; intros (y & H1 & H2); exists y; auto.
Qed.

(** [std::remove] leaves no element equal to the removed one, and keeps
    every other element. *)
Lemma find_in_erase (x y : T) (l : list T) :
  find_in x (erase_remove y l) = if eqb y x then false else find_in x l.
Proof using eqb_sym eqb_trans.
  unfold erase_remove. destruct (eqb y x) eqn:Hyx.
  - destruct (find_in x (filter _ l)) eqn:Hf; auto.
    apply find_in_iff in Hf as (z & Hz & Hzx).
    apply filter_In in Hz as [_ Hz].
    rewrite (eqb_trans z x y) in Hz; [discriminate | assumption | auto].
  - apply bool_eq_iff. rewrite !find_in_iff.
    split; intros (z & Hz & Hzx); exists z; split; auto.
    + apply filter_In in Hz. tauto.
    + apply filter_In. split; auto.
      destruct (eqb z y) eqn:Hzy; auto.
      rewrite (eqb_trans y z x) in Hyx; [discriminate | auto | assumption].
Qed.

Lemma erase_remove_absent (y : T) (l : list T) :
  (forall z, In z l -> eqb z y = false) -> erase_remove y l = l.
Proof.
  unfold erase_remove. induction l as [|a l IH]; intros H; simpl; auto.
  rewrite (H a) by (left; reflexivity). simpl. f_equal.
  apply IH. intros z Hz. apply H. now right.
Qed.

Lemma erase_remove_app (y : T) (l l' : list T) :
  erase_remove y (l ++ l') = erase_remove y l ++ erase_remove y l'.
Proof.
  unfold erase_remove. apply filter_app.
Qed.

(** Erasing from one bucket is erasing from the scan of all buckets, when
    no other bucket holds an element equal to the erased one. *)
Lemma concat_erase (y : T) (i : nat) (tbl : list (list T)) :
  (forall j z, j <> i -> In z (nth j tbl []) -> eqb z y = false) ->
  concat (update_bucket (erase_remove y) i tbl) = erase_remove y (concat tbl).
Proof.
  revert i. induction tbl as [|b rest IH]; intros i H; simpl.
  - destruct i; reflexivity.
  - rewrite erase_remove_app. destruct i as [|i]; simpl.
    + f_equal. symmetry. apply erase_remove_absent.
      intros z Hz. apply in_concat_nth in Hz as (j & Hj).
      apply (H (S j)); [lia | exact Hj].
    + f_equal.
      * symmetry. apply erase_remove_absent. intros z Hz.
        apply (H O); [lia | exact Hz].
      * apply IH. intros j z Hne Hz. apply (H (S j)); [lia | exact Hz].
Qed.

(** ** Membership is a property of the scan of all buckets *)

Lemma placed_same_bucket (tbl : list (list T)) (x z : T) (i j : nat) :
  placed_table tbl ->
  bucket_index (Z.of_nat (length tbl)) x = Some i ->
  In z (nth j tbl []) -> eqb z x = true -> j = i.
Proof using hash_eqb.
  intros Hp Hi Hz Hzx.
  destruct (bucket_index_inv _ _ _ Hi) as [_ Hmod].
  apply Hp in Hz. rewrite (hash_eqb z x Hzx) in Hz. lia.
Qed.

Lemma Contains_elements (s : HashSet) (x : T) :
  0 < capacity s -> placed s ->
  Contains_ s x = Some (find_in x (elements s)).
Proof using hash_eqb.
  intros Hc Hp. unfold Contains_. rewrite bucket_index_pos by assumption.
  simpl. f_equal. set (i := Z.to_nat _).
  assert (Hi : bucket_index (capacity s) x = Some i)
    by (apply bucket_index_pos; assumption).
  apply bool_eq_iff. rewrite !find_in_iff.
  split; intros (z & Hz & Hzx); exists z; split; auto.
  - apply in_concat_nth. eauto.
  - apply in_concat_nth in Hz as (j & Hj).
    now rewrite <- (placed_same_bucket _ _ _ _ _ Hp Hi Hj Hzx).
Qed.

(** ** Lists without equal elements *)

Lemma distinct_cons (x : T) (l : list T) :
  find_in x l = false -> NoDupA same l -> NoDupA same (x :: l).
Proof using eqb_sym.
  intros Hf Hl. constructor; auto.
  rewrite <- find_in_InA. congruence.
Qed.

Lemma distinct_perm (l l' : list T) :
  Permutation l l' -> NoDupA same l -> NoDupA same l'.
Proof using eqb_sym.
  induction 1 as [|x l l' Hp IH|x y l|l l' l'' _ IH1 _ IH2]; intros Hnd; auto.
  - inversion_clear Hnd as [|? ? Hx Hl]. constructor; auto.
    rewrite <- find_in_InA in *. now rewrite <- (find_in_perm x l l' Hp).
  - inversion_clear Hnd as [|? ? Hy Hxl]. inversion_clear Hxl as [|? ? Hx Hl].
    constructor; [|constructor; auto].
    intros Hin. inversion_clear Hin as [? ? Hxy|? ? Hin']; auto.
    apply Hy. left. apply eqb_sym. exact Hxy.
Qed.

Lemma distinct_erase (y : T) (l : list T) :
  NoDupA same l -> NoDupA same (erase_remove y l).
Proof.
  unfold erase_remove.
  induction 1 as [|x l Hx Hl IH]; simpl; [constructor|].
  destruct (negb (eqb x y)); auto. constructor; auto.
  intros Hin. apply Hx. rewrite InA_alt in *.
  destruct Hin as (z & Hxz & Hz). apply filter_In in Hz. exists z. tauto.
Qed.

(** [std::remove] drops exactly one element of a duplicate-free bucket that
    holds the element. *)
Lemma length_erase (y : T) (l : list T) :
  NoDupA same l -> find_in y l = true ->
  S (length (erase_remove y l)) = length l.
Proof using eqb_sym eqb_trans.
  induction 1 as [|x l Hx Hl IH]; simpl; [discriminate|].
  destruct (eqb x y) eqn:Hxy; simpl.
  - intros _. f_equal. fold (erase_remove y l).
    rewrite erase_remove_absent; auto.
    intros z Hz. destruct (eqb z y) eqn:Hzy; auto.
    exfalso. apply Hx. rewrite InA_alt. exists z. split; auto.
    unfold same. eauto.
  - intros Hf. f_equal. apply IH. exact Hf.
Qed.

(** ** The effect of the statements of [Add] and [Remove] *)

Lemma insert_at_capacity (s : HashSet) (i : nat) (e : T) :
  capacity (insert_at s i e) = capacity s.
Proof.
  unfold capacity, insert_at; simpl. now rewrite update_bucket_length.
Qed.

Lemma insert_at_elements (s : HashSet) (i : nat) (e : T) :
  bucket_index (capacity s) e = Some i ->
  Permutation (elements (insert_at s i e)) (e :: elements s).
Proof.
  intros Hi. apply bucket_index_inv in Hi as [Hlt _].
  unfold elements, insert_at; simpl. now apply concat_push_back.
Qed.

Lemma insert_at_placed (s : HashSet) (i : nat) (e : T) :
  bucket_index (capacity s) e = Some i ->
  placed s -> placed (insert_at s i e).
Proof.
  intros Hi Hp. unfold placed, insert_at; simpl. now apply placed_table_push.
Qed.

Lemma insert_at_bucket (s : HashSet) (i : nat) (e : T) :
  bucket_index (capacity s) e = Some i ->
  nth i (table_ (insert_at s i e)) [] = nth i (table_ s) [] ++ [e] /\
  forall j, j <> i -> nth j (table_ (insert_at s i e)) [] = nth j (table_ s) [].
Proof.
  intros Hi. apply bucket_index_inv in Hi as [Hlt _].
  unfold insert_at; simpl. split.
  - now rewrite nth_update_bucket_same.
  - intros j Hne. apply nth_update_bucket_other. auto.
Qed.

Lemma erase_at_capacity (s : HashSet) (i : nat) (e : T) :
  capacity (erase_at s i e) = capacity s.
Proof.
  unfold capacity, erase_at; simpl. now rewrite update_bucket_length.
Qed.

Lemma erase_at_bucket (s : HashSet) (i : nat) (e : T) :
  bucket_index (capacity s) e = Some i ->
  nth i (table_ (erase_at s i e)) [] = erase_remove e (nth i (table_ s) []) /\
  forall j, j <> i -> nth j (table_ (erase_at s i e)) [] = nth j (table_ s) [].
Proof.
  intros Hi. apply bucket_index_inv in Hi as [Hlt _].
  unfold erase_at; simpl. split.
  - now rewrite nth_update_bucket_same.
  - intros j Hne. apply nth_update_bucket_other. auto.
Qed.

Lemma erase_at_placed (s : HashSet) (i : nat) (e : T) :
  bucket_index (capacity s) e = Some i ->
  placed s -> placed (erase_at s i e).
Proof.
  intros Hi Hp j x Hx.
  destruct (erase_at_bucket s i e Hi) as [Hsame Hother].
  fold (capacity (erase_at s i e)). rewrite erase_at_capacity.
  destruct (Nat.eq_dec j i) as [->|Hne].
  - rewrite Hsame in Hx. apply filter_In in Hx as [Hx _]. now apply Hp.
  - rewrite (Hother j Hne) in Hx. now apply Hp.
Qed.

Lemma erase_at_elements (s : HashSet) (i : nat) (e : T) :
  bucket_index (capacity s) e = Some i ->
  placed s ->
  elements (erase_at s i e) = erase_remove e (elements s).
Proof using hash_eqb.
  intros Hi Hp. unfold elements, erase_at; simpl. apply concat_erase.
  intros j z Hne Hz. destruct (eqb z e) eqn:Hze; auto.
  exfalso. apply Hne. exact (placed_same_bucket _ _ _ _ _ Hp Hi Hz Hze).
Qed.

(** ** What [Add] and [Remove] do, case by case *)

Lemma home_index (s : HashSet) (e : T) :
  0 < capacity s -> bucket_index (capacity s) e = Some (home s e).
Proof.
  apply bucket_index_pos.
Qed.

Lemma Contains_home (s : HashSet) (e : T) :
  0 < capacity s ->
  Contains_ s e = Some (find_in e (nth (home s e) (table_ s) [])).
Proof.
  intros Hc. unfold Contains_. now rewrite home_index.
Qed.

Lemma Contains_defined (s : HashSet) (e : T) (b : bool) :
  Contains_ s e = Some b -> 0 < capacity s.
Proof.
  unfold Contains_. destruct (bucket_index (capacity s) e) as [i|] eqn:Hi;
    [|discriminate].
  intros _. apply bucket_index_defined in Hi. unfold capacity in *. lia.
Qed.

Lemma Add_present (s : HashSet) (e : T) :
  Contains_ s e = Some true -> Add s e = Some (false, s).
Proof.
  intros Hc. unfold Add. now rewrite Hc.
Qed.

Lemma insert_at_set_size (s : HashSet) (i : nat) (e : T) :
  0 <= set_size_ (insert_at s i e) < size_modulus.
Proof.
  apply wrap_range.
Qed.

(** A successful [Add] pushes the element, bumps the counter, and then
    either returns or resizes, as [Policy] says on the state in between. *)
Lemma Add_absent (s : HashSet) (e : T) :
  Contains_ s e = Some false ->
  let s1 := insert_at s (home s e) e in
  (Policy s1 = Some false /\ Add s e = Some (true, s1)) \/
  (Policy s1 = Some true /\
   exists s2, Resize s1 = Some s2 /\ Add s e = Some (true, s2) /\
              capacity s2 = 2 * capacity s /\
              set_size_ s2 = set_size_ s1 /\
              Permutation (elements s2) (elements s1) /\
              placed s2).
Proof.
  intros Hc s1. pose proof (Contains_defined _ _ _ Hc) as Hcap.
  assert (Hcap1 : 0 < capacity s1) by (unfold s1; now rewrite insert_at_capacity).
  unfold Add. rewrite Hc. cbn [bind]. rewrite home_index by assumption.
  cbn [bind]. fold s1. rewrite (Policy_pos s1 Hcap1). cbn [bind].
  destruct (bucket_capacity_ <? set_size_ s1 / capacity s1) eqn:Hp.
  - right. split; [reflexivity|].
    apply Z.ltb_lt in Hp.
    pose proof (Policy_no_overflow _ _ Hcap1 (insert_at_set_size s (home s e) e) Hp)
      as Hw.
    destruct (Resize_spec s1) as (s2 & Hr & Hc2 & Hs2 & Hperm & Hpl); [lia|].
    exists s2. rewrite Hr. cbn [bind]. repeat split; auto.
    rewrite Hc2, Hw. unfold s1. rewrite insert_at_capacity. lia.
  - left. auto.
Qed.

Lemma Add_total (s : HashSet) (e : T) :
  0 < capacity s -> exists r s', Add s e = Some (r, s').
Proof.
  intros Hcap. pose proof (Contains_home s e Hcap) as Hc.
  destruct (find_in e (nth (home s e) (table_ s) [])).
  - exists false, s. now apply Add_present.
  - destruct (Add_absent s e Hc) as [[_ H]|[_ (s2 & _ & H & _)]]; eauto.
Qed.

Lemma Remove_absent (s : HashSet) (e : T) :
  Contains_ s e = Some false -> Remove s e = Some (false, s).
Proof.
  intros Hc. unfold Remove. now rewrite Hc.
Qed.

Lemma Remove_present (s : HashSet) (e : T) :
  Contains_ s e = Some true ->
  Remove s e = Some (true, erase_at s (home s e) e).
Proof.
  intros Hc. pose proof (Contains_defined _ _ _ Hc) as Hcap.
  unfold Remove. rewrite Hc. simpl. now rewrite home_index.
Qed.

Lemma Remove_total (s : HashSet) (e : T) :
  0 < capacity s -> exists r s', Remove s e = Some (r, s').
Proof.
  intros Hcap. pose proof (Contains_home s e Hcap) as Hc.
  destruct (find_in e (nth (home s e) (table_ s) [])).
  - eexists _, _. now apply Remove_present.
  - eexists _, _. now apply Remove_absent.
Qed.

(** The effect of [Add] on the scan of all buckets. *)
Lemma Add_effect (s : HashSet) (e : T) (r : bool) (s' : HashSet) :
  placed s -> Add s e = Some (r, s') ->
  0 < capacity s' /\ placed s' /\ capacity s <= capacity s' /\
  if r then
    find_in e (elements s) = false /\
    Permutation (elements s') (e :: elements s) /\
    set_size_ s' = wrap (set_size_ s + 1)
  else
    s' = s /\ find_in e (elements s) = true.
Proof using hash_eqb.
  intros Hp Ha.
  assert (Hcap : 0 < capacity s).
  { unfold Add in Ha. destruct (Contains_ s e) as [b|] eqn:Hc; [|discriminate].
    now apply Contains_defined in Hc. }
  pose proof (Contains_elements s e Hcap Hp) as Hc.
  destruct (find_in e (elements s)) eqn:Hf.
  - rewrite (Add_present s e Hc) in Ha. injection Ha as <- <-.
    repeat split; auto. lia.
  - pose proof (insert_at_elements s _ e (home_index s e Hcap)) as Hperm1.
    destruct (Add_absent s e Hc) as [[_ H]|[_ (s2 & _ & H & Hc2 & Hs2 & Hperm & Hpl)]];
      rewrite H in Ha; injection Ha as <- <-.
    + rewrite insert_at_capacity. repeat split; auto; try lia.
      apply insert_at_placed; auto using home_index.
    + repeat split; auto; try lia. now rewrite Hperm.
Qed.

(** The effect of [Remove] on the scan of all buckets. *)
Lemma Remove_effect (s : HashSet) (e : T) (r : bool) (s' : HashSet) :
  placed s -> Remove s e = Some (r, s') ->
  0 < capacity s' /\ placed s' /\ capacity s' = capacity s /\
  if r then
    find_in e (elements s) = true /\
    elements s' = erase_remove e (elements s) /\
    set_size_ s' = wrap (set_size_ s - 1)
  else
    s' = s /\ find_in e (elements s) = false.
Proof using hash_eqb.
  intros Hp Hr.
  assert (Hcap : 0 < capacity s).
  { unfold Remove in Hr. destruct (Contains_ s e) as [b|] eqn:Hc; [|discriminate].
    now apply Contains_defined in Hc. }
  pose proof (Contains_elements s e Hcap Hp) as Hc.
  destruct (find_in e (elements s)) eqn:Hf.
  - rewrite (Remove_present s e Hc) in Hr. injection Hr as <- <-.
    rewrite erase_at_capacity. repeat split; auto.
    + apply erase_at_placed; auto using home_index.
    + apply erase_at_elements; auto using home_index.
  - rewrite (Remove_absent s e Hc) in Hr. injection Hr as <- <-.
    repeat split; auto.
Qed.

(** Membership after one call. *)
Lemma step_membership (s : HashSet) (o : op) (s' : HashSet) (x : T) :
  placed s -> step s o = Some s' ->
  find_in x (elements s') = net_effect x (find_in x (elements s)) o.
Proof using eqb_sym eqb_trans hash_eqb.
  intros Hp Hs. destruct o as [e|e|e]; simpl in *.
  - destruct (Add s e) as [[r s1]|] eqn:Ha; [|discriminate].
    simpl in Hs. injection Hs as ->.
    destruct (Add_effect s e r s' Hp Ha) as (_ & _ & _ & H). destruct r.
    + destruct H as (_ & Hperm & _). rewrite (find_in_perm x _ _ Hperm).
      simpl. destruct (eqb e x); reflexivity.
    + destruct H as (-> & Hf). destruct (eqb e x) eqn:Hex; auto.
      now rewrite <- (find_in_same e x _ Hex).
  - destruct (Remove s e) as [[r s1]|] eqn:Hr; [|discriminate].
    simpl in Hs. injection Hs as ->.
    destruct (Remove_effect s e r s' Hp Hr) as (_ & _ & _ & H). destruct r.
    + destruct H as (_ & -> & _). apply find_in_erase.
    + destruct H as (-> & Hf). destruct (eqb e x) eqn:Hex; auto.
      now rewrite <- (find_in_same e x _ Hex).
  - destruct (Contains s e); [|discriminate]. simpl in Hs. now injection Hs as ->.
Qed.

Lemma step_total (s : HashSet) (o : op) :
  0 < capacity s -> exists s', step s o = Some s'.
Proof.
  intros Hcap. destruct o as [e|e|e]; simpl.
  - destruct (Add_total s e Hcap) as (r & s' & ->). simpl. eauto.
  - destruct (Remove_total s e Hcap) as (r & s' & ->). simpl. eauto.
  - unfold Contains. rewrite Contains_home by assumption. simpl. eauto.
Qed.

Lemma step_shape (s : HashSet) (o : op) (s' : HashSet) :
  placed s -> step s o = Some s' ->
  0 < capacity s' /\ placed s' /\ capacity s <= capacity s'.
Proof using hash_eqb.
  intros Hp Hs. destruct o as [e|e|e]; simpl in *.
  - destruct (Add s e) as [[r s1]|] eqn:Ha; [|discriminate].
    simpl in Hs. injection Hs as ->.
    destruct (Add_effect s e r s' Hp Ha) as (? & ? & ? & _). auto.
  - destruct (Remove s e) as [[r s1]|] eqn:Hr; [|discriminate].
    simpl in Hs. injection Hs as ->.
    destruct (Remove_effect s e r s' Hp Hr) as (? & ? & ? & _).
    repeat split; auto; lia.
  - destruct (Contains s e) eqn:Hc; [|discriminate]. simpl in Hs.
    injection Hs as ->. apply Contains_defined in Hc. repeat split; auto; lia.
Qed.

(** ** The invariants are kept *)

Lemma Inv_new (n : nat) : (0 < n)%nat -> Inv (HashSetCoarseGrained n).
Proof.
  intros Hn. unfold HashSetCoarseGrained.
  split; unfold capacity, placed, distinct, counted, elements; simpl.
  - rewrite repeat_length. lia.
  - apply placed_table_empty.
  - rewrite concat_repeat_nil. constructor.
  - now rewrite concat_repeat_nil.
  - reflexivity.
Qed.

Lemma Add_Inv (s : HashSet) (e : T) (r : bool) (s' : HashSet) :
  Inv s -> set_size_ s + 1 < size_modulus ->
  Add s e = Some (r, s') -> Inv s'.
Proof using eqb_sym hash_eqb.
  intros [Hcap Hp Hd Hn Hr] Hroom Ha.
  destruct (Add_effect s e r s' Hp Ha) as (Hcap' & Hp' & _ & H).
  destruct r.
  - destruct H as (Hf & Hperm & Hsz).
    unfold counted in Hn.
    rewrite wrap_small in Hsz by lia.
    split; auto.
    + unfold distinct. apply (distinct_perm (e :: elements s)).
      * symmetry. exact Hperm.
      * apply distinct_cons; assumption.
    + unfold counted. rewrite (Permutation_length Hperm). simpl length. lia.
    + lia.
  - destruct H as (-> & _). split; auto.
Qed.

Lemma Remove_Inv (s : HashSet) (e : T) (r : bool) (s' : HashSet) :
  Inv s -> Remove s e = Some (r, s') ->
  Inv s' /\ set_size_ s' <= set_size_ s.
Proof using eqb_sym eqb_trans hash_eqb.
  intros [Hcap Hp Hd Hn Hr] Hrm.
  destruct (Remove_effect s e r s' Hp Hrm) as (Hcap' & Hp' & _ & H).
  destruct r.
  - destruct H as (Hf & Hel & Hsz).
    pose proof (length_erase e (elements s) Hd Hf) as Hlen.
    unfold counted in Hn.
    rewrite wrap_small in Hsz by lia.
    split; [split|]; auto.
    + unfold distinct. rewrite Hel. now apply distinct_erase.
    + unfold counted. rewrite Hel. lia.
    + lia.
    + lia.
  - destruct H as (-> & _). split; [split; auto | lia].
Qed.

Lemma step_Inv (s : HashSet) (o : op) (s' : HashSet) :
  Inv s -> set_size_ s + 1 < size_modulus ->
  step s o = Some s' ->
  Inv s' /\ set_size_ s' <= set_size_ s + 1.
Proof using eqb_sym eqb_trans hash_eqb.
  intros HI Hroom Hs. destruct o as [e|e|e]; simpl in Hs.
  - destruct (Add s e) as [[r s1]|] eqn:Ha; [|discriminate].
    simpl in Hs. injection Hs as ->.
    split; [exact (Add_Inv s e r s' HI Hroom Ha)|].
    destruct (Add_effect s e r s' (inv_placed s HI) Ha) as (_ & _ & _ & H).
    pose proof (inv_counted s HI) as Hn. unfold counted in Hn.
    destruct r.
    + destruct H as (_ & _ & ->). rewrite wrap_small; lia.
    + destruct H as (-> & _). lia.
  - destruct (Remove s e) as [[r s1]|] eqn:Hr; [|discriminate].
    simpl in Hs. injection Hs as ->.
    destruct (Remove_Inv s e r s' HI Hr). split; [assumption | lia].
  - destruct (Contains s e); [|discriminate]. simpl in Hs. injection Hs as ->.
    split; [assumption | lia].
Qed.

Lemma run_app (ops1 ops2 : list op) (s : HashSet) :
  run (ops1 ++ ops2) s = (s1 <- run ops1 s ;; run ops2 s1).
Proof.
  revert s. induction ops1 as [|o ops1 IH]; intros s; simpl; auto.
  destruct (step s o) as [s'|]; simpl; auto.
Qed.

(** Every sequence of calls runs to the end, keeps the invariants and never
    lowers the capacity, as long as the counter has room for the calls. *)
Lemma run_Inv (ops : list op) (s : HashSet) :
  Inv s -> set_size_ s + Z.of_nat (length ops) < size_modulus ->
  exists s', run ops s = Some s' /\ Inv s' /\
             capacity s <= capacity s' /\
             set_size_ s' <= set_size_ s + Z.of_nat (length ops).
Proof using eqb_sym eqb_trans hash_eqb.
  revert s. induction ops as [|o ops IH]; intros s HI Hroom;
    cbn [run length] in *; rewrite ?Nat2Z.inj_succ in *.
  - exists s. split; [reflexivity|]. split; [assumption|]. lia.
  - destruct (step_total s o (inv_capacity s HI)) as (s1 & Hs). rewrite Hs.
    cbn [bind].
    destruct (step_Inv s o s1 HI ltac:(lia) Hs) as [HI1 Hsz1].
    destruct (step_shape s o s1 (inv_placed s HI) Hs) as (_ & _ & Hcap1).
    destruct (IH s1 HI1 ltac:(lia)) as (s' & Hrun & HI' & Hcap' & Hsz').
    exists s'. split; [assumption|]. split; [assumption|]. lia.
Qed.

(** Every sequence of calls runs to the end, and leaves in the table the
    elements whose last [Add] or [Remove] is an [Add]. *)
Lemma run_membership (ops : list op) (s : HashSet) :
  0 < capacity s -> placed s ->
  exists s', run ops s = Some s' /\ 0 < capacity s' /\ placed s' /\
             capacity s <= capacity s' /\
             forall x, find_in x (elements s')
                       = fold_left (net_effect x) ops (find_in x (elements s)).
Proof using eqb_sym eqb_trans hash_eqb.
  revert s. induction ops as [|o ops IH]; intros s Hcap Hp; simpl.
  - exists s. repeat split; auto; lia.
  - destruct (step_total s o Hcap) as (s1 & Hs). rewrite Hs. cbn [bind].
    destruct (step_shape s o s1 Hp Hs) as (Hcap1 & Hp1 & Hle1).
    destruct (IH s1 Hcap1 Hp1) as (s' & Hrun & Hcap' & Hp' & Hle' & Hmem).
    exists s'. repeat split; auto; try lia.
    intros x. rewrite Hmem. f_equal. now apply step_membership.
Qed.

(** ** The two readings of net membership agree *)

Lemma added_and_kept_nil (x : T) : ~ added_and_kept x [].
Proof.
  intros (pre & o & post & H & _). destruct pre; discriminate.
Qed.

Lemma added_and_kept_cons (x : T) (o : op) (ops : list op) :
  added_and_kept x (o :: ops) <->
  (adds x o = true /\ never_removes x ops = true) \/ added_and_kept x ops.
Proof.
  split.
  - intros (pre & o' & post & H & Ha & Hn). destruct pre as [|p pre]; simpl in H.
    + injection H as -> ->. auto.
    + injection H as -> ->. right. exists pre, o', post. auto.
  - intros [[Ha Hn]|(pre & o' & post & -> & Ha & Hn)].
    + exists [], o, ops. auto.
    + exists (o :: pre), o', post. auto.
Qed.

Lemma net_effect_true (x : T) (b : bool) (o : op) :
  net_effect x b o = true <->
  adds x o = true \/ (b = true /\ removes x o = false).
Proof.
  destruct o as [y|y|y]; simpl; destruct (eqb y x), b; intuition congruence.
Qed.

Lemma net_fold_iff (x : T) (ops : list op) (b : bool) :
  fold_left (net_effect x) ops b = true <->
  added_and_kept x ops \/ (b = true /\ never_removes x ops = true).
Proof.
  revert b. induction ops as [|o ops IH]; intros b; simpl.
  - pose proof (added_and_kept_nil x). intuition.
  - rewrite IH, added_and_kept_cons, net_effect_true.
    destruct (removes x o); simpl; intuition congruence.
Qed.

Lemma net_present_iff (x : T) (ops : list op) :
  net_present x ops = true <-> added_and_kept x ops.
Proof.
  unfold net_present. rewrite net_fold_iff. intuition congruence.
Qed.

(** ** After an [Add], the element is found *)

Lemma Add_contains (s : HashSet) (e : T) (r : bool) (s' : HashSet) :
  Add s e = Some (r, s') -> Contains_ s' e = Some true.
Proof using eqb_refl hash_eqb.
  intros Ha.
  assert (Hcap : 0 < capacity s).
  { unfold Add in Ha. destruct (Contains_ s e) as [b|] eqn:Hc; [|discriminate].
    now apply Contains_defined in Hc. }
  pose proof (Contains_home s e Hcap) as Hc.
  destruct (find_in e (nth (home s e) (table_ s) [])) eqn:Hf.
  - rewrite (Add_present s e Hc) in Ha. now injection Ha as <- <-.
  - pose proof (home_index s e Hcap) as Hi.
    assert (Hin : find_in e (elements (insert_at s (home s e) e)) = true).
    { rewrite (find_in_perm e _ _ (insert_at_elements s _ e Hi)).
      simpl. now rewrite eqb_refl. }
    destruct (Add_absent s e Hc) as [[_ H]|[_ (s2 & _ & H & Hc2 & _ & Hperm & Hpl)]];
      rewrite H in Ha; injection Ha as <- <-.
    + rewrite Contains_home by now rewrite insert_at_capacity.
      unfold home at 1. rewrite insert_at_capacity. fold (home s e).
      destruct (insert_at_bucket s _ e Hi) as [-> _].
      rewrite find_in_app. simpl. now rewrite eqb_refl, orb_true_r.
    + rewrite Contains_elements by (auto; lia).
      now rewrite (find_in_perm e _ _ Hperm), Hin.
Qed.

Lemma find_in_nonempty (x : T) (i : nat) (tbl : list (list T)) :
  find_in x (nth i tbl []) = true -> (0 < length (concat tbl))%nat.
Proof.
  intros Hf. apply find_in_iff in Hf as (y & Hy & _).
  assert (Hin : In y (concat tbl)) by (apply in_concat_nth; eauto).
  destruct (concat tbl); [destruct Hin | simpl; lia].
Qed.

(** ** [Resize] on any state *)

Lemma rehash_bucket_zero (l : list T) :
  rehash_bucket (Some []) l = match l with [] => Some [] | _ :: _ => None end.
Proof.
  destruct l as [|e l]; simpl; auto.
  unfold rehash_bucket. simpl. apply rehash_elem_None.
Qed.

Lemma rehash_table_zero (tbl nt : list (list T)) :
  fold_left rehash_bucket tbl (Some []) = Some nt ->
  concat tbl = [] /\ nt = [].
Proof.
  induction tbl as [|b tbl IH]; simpl.
  - intros [= <-]. auto.
  - rewrite rehash_bucket_zero. destruct b as [|e b].
    + intros H. apply IH in H. simpl. exact H.
    + rewrite rehash_bucket_None. discriminate.
Qed.

(** Whenever [Resize] returns, the new table holds the elements of the old
    one, each in the bucket of its hash, and the counter is untouched. *)
Lemma Resize_replaces (s s' : HashSet) :
  Resize s = Some s' ->
  Permutation (elements s') (elements s) /\ placed s' /\
  capacity s' = wrap (capacity s * 2).
Proof.
  intros Hr. pose proof (wrap_range (capacity s * 2)) as Hw.
  destruct (Z.eq_dec (wrap (capacity s * 2)) 0) as [Hz|Hnz].
  - unfold Resize in Hr. rewrite Hz in Hr. simpl in Hr.
    destruct (fold_left rehash_bucket (table_ s) (Some [])) as [nt|] eqn:Hf;
      [|discriminate].
    apply rehash_table_zero in Hf as [Hel ->]. injection Hr as <-.
    split; [|split].
    + unfold elements; simpl. rewrite Hel. constructor.
    + intros i e He. simpl in He. destruct i; destruct He.
    + rewrite Hz. reflexivity.
  - destruct (Resize_spec s) as (s2 & Hr2 & Hc & _ & Hperm & Hpl); [lia|].
    rewrite Hr in Hr2. injection Hr2 as <-. auto.
Qed.

Lemma run_placed (ops : list op) (s : HashSet) :
  0 < capacity s -> placed s ->
  exists s', run ops s = Some s' /\ 0 < capacity s' /\ placed s'.
Proof using hash_eqb.
  revert s. induction ops as [|o ops IH]; intros s Hcap Hp; simpl.
  - eauto.
  - destruct (step_total s o Hcap) as (s1 & Hs). rewrite Hs. cbn [bind].
    destruct (step_shape s o s1 Hp Hs) as (Hcap1 & Hp1 & _). auto.
Qed.

(** ** [Resize] with failing allocations *)

Lemma rehash_bucket_alloc_completed (fails : alloc_site -> bool) (b k : nat)
      (l : list T) (nt nt' : list (list T)) :
  rehash_bucket_alloc fails b k l nt = Completed nt' ->
  rehash_bucket (Some nt) l = Some nt'.
Proof.
  unfold rehash_bucket. revert k nt.
  induction l as [|e l IH]; intros k nt; simpl.
  - now intros [= ->].
  - destruct (bucket_index (Z.of_nat (length nt)) e) as [i|]; [|discriminate].
    destruct (fails (PushBackAlloc b k)); [discriminate|]. simpl. apply IH.
Qed.

Lemma rehash_table_alloc_completed (fails : alloc_site -> bool) (b : nat)
      (tbl nt nt' : list (list T)) :
  rehash_table_alloc fails b tbl nt = Completed nt' ->
  fold_left rehash_bucket tbl (Some nt) = Some nt'.
Proof.
  revert b nt. induction tbl as [|bucket tbl IH]; intros b nt; simpl.
  - now intros [= ->].
  - destruct (fails (BucketCopyAlloc b)); [discriminate|].
    destruct (rehash_bucket_alloc fails b 0 bucket nt) as [nt1| |] eqn:Hb;
      try discriminate.
    rewrite (rehash_bucket_alloc_completed _ _ _ _ _ _ Hb). apply IH.
Qed.

Lemma rehash_bucket_alloc_reliable (b k : nat) (l : list T) (nt : list (list T)) :
  rehash_bucket_alloc (fun _ => false) b k l nt
  = match rehash_bucket (Some nt) l with
    | Some nt' => Completed nt'
    | None => Undefined
    end.
Proof.
  unfold rehash_bucket. revert k nt.
  induction l as [|e l IH]; intros k nt; simpl; auto.
  destruct (bucket_index (Z.of_nat (length nt)) e) as [i|]; simpl.
  - apply IH.
  - now rewrite rehash_elem_None.
Qed.

Lemma rehash_table_alloc_reliable (b : nat) (tbl nt : list (list T)) :
  rehash_table_alloc (fun _ => false) b tbl nt
  = match fold_left rehash_bucket tbl (Some nt) with
    | Some nt' => Completed nt'
    | None => Undefined
    end.
Proof.
  revert b nt. induction tbl as [|bucket tbl IH]; intros b nt; simpl; auto.
  rewrite rehash_bucket_alloc_reliable.
  destruct (rehash_bucket (Some nt) bucket) as [nt1|].
  - apply IH.
  - now rewrite rehash_bucket_None.
Qed.

(** With allocations that never fail, [Resize_alloc] is [Resize]. *)
Lemma Resize_alloc_reliable (s : HashSet) :
  Resize_alloc (fun _ => false) s
  = match Resize s with
    | Some s' => ResizeReturned s'
    | None => ResizeUndefined
    end.
Proof.
  unfold Resize_alloc, Resize. rewrite rehash_table_alloc_reliable.
  destruct (fold_left rehash_bucket (table_ s) _); reflexivity.
Qed.

(** ** Runs of [Add] below and at the resize threshold *)

Lemma net_adds (x : T) (l : list T) (b : bool) :
  fold_left (net_effect x) (map OpAdd l) b = find_in x l || b.
Proof.
  revert b. induction l as [|e l IH]; intros b; simpl; auto.
  rewrite IH. destruct (eqb e x), (find_in x l), b; reflexivity.
Qed.

Lemma Add_below_threshold (s : HashSet) (e : T) :
  Inv s -> find_in e (elements s) = false ->
  set_size_ s + 1 < 5 * capacity s ->
  set_size_ s + 1 < size_modulus ->
  exists s',
    Add s e = Some (true, s') /\ capacity s' = capacity s /\
    set_size_ s' = set_size_ s + 1 /\
    Permutation (elements s') (e :: elements s) /\ Inv s'.
Proof using eqb_sym hash_eqb.
  intros HI Hf Hlow Hroom.
  pose proof (inv_capacity _ HI) as Hcap.
  pose proof (inv_counted _ HI) as Hn. unfold counted in Hn.
  assert (Hc : Contains_ s e = Some false)
    by (rewrite Contains_elements by (auto using inv_placed); now rewrite Hf).
  set (s1 := insert_at s (home s e) e).
  assert (Hs1 : set_size_ s1 = set_size_ s + 1)
    by (unfold s1, insert_at; simpl; apply wrap_small; lia).
  assert (Hc1 : capacity s1 = capacity s) by apply insert_at_capacity.
  assert (Hpol : Policy s1 = Some false).
  { rewrite Policy_pos by lia. f_equal. apply Z.ltb_ge.
    rewrite Hs1, Hc1. unfold bucket_capacity_.
    assert (Hq : (set_size_ s + 1) / capacity s < 5)
      by (apply Z.div_lt_upper_bound; lia).
    lia. }
  destruct (Add_absent s e Hc) as [[_ H]|[Hp _]];
    [fold s1 in H | fold s1 in Hp; congruence].
  exists s1. split; [assumption|]. split; [assumption|]. split; [assumption|].
  split; [apply insert_at_elements, home_index; assumption|].
  exact (Add_Inv s e true s1 HI Hroom H).
Qed.

Lemma Add_at_threshold (s : HashSet) (e : T) :
  Inv s -> find_in e (elements s) = false ->
  5 * capacity s <= set_size_ s + 1 ->
  set_size_ s + 1 < size_modulus ->
  exists s',
    Add s e = Some (true, s') /\ capacity s' = 2 * capacity s /\
    set_size_ s' = set_size_ s + 1 /\ Inv s'.
Proof using eqb_sym hash_eqb.
  intros HI Hf Hhigh Hroom.
  pose proof (inv_capacity _ HI) as Hcap.
  pose proof (inv_counted _ HI) as Hn. unfold counted in Hn.
  assert (Hc : Contains_ s e = Some false)
    by (rewrite Contains_elements by (auto using inv_placed); now rewrite Hf).
  set (s1 := insert_at s (home s e) e).
  assert (Hs1 : set_size_ s1 = set_size_ s + 1)
    by (unfold s1, insert_at; simpl; apply wrap_small; lia).
  assert (Hc1 : capacity s1 = capacity s) by apply insert_at_capacity.
  assert (Hpol : Policy s1 = Some true).
  { rewrite Policy_pos by lia. f_equal. apply Z.ltb_lt.
    rewrite Hs1, Hc1. unfold bucket_capacity_.
    assert (Hq : 5 <= (set_size_ s + 1) / capacity s)
      by (apply Z.div_le_lower_bound; lia).
    lia. }
  destruct (Add_absent s e Hc) as [[Hp _]|[_ (s2 & _ & H & Hc2 & Hs2 & _)]];
    [fold s1 in Hp; congruence | fold s1 in Hs2].
  exists s2. split; [assumption|]. split; [assumption|]. split; [lia|].
  exact (Add_Inv s e true s2 HI Hroom H).
Qed.

(** Adding fresh, distinct elements while the counter stays under five
    times the capacity never resizes. *)
Lemma run_adds_below_threshold (l : list T) (s : HashSet) :
  Inv s -> NoDupA same (l ++ elements s) ->
  set_size_ s + Z.of_nat (length l) < 5 * capacity s ->
  set_size_ s + Z.of_nat (length l) < size_modulus ->
  exists s',
    run (map OpAdd l) s = Some s' /\ capacity s' = capacity s /\
    set_size_ s' = set_size_ s + Z.of_nat (length l) /\ Inv s'.
Proof using eqb_sym hash_eqb.
  revert s. induction l as [|e l IH]; intros s HI Hnd Hlow Hroom;
    cbn [map run length app] in *; rewrite ?Nat2Z.inj_succ in *.
  - exists s. split; [reflexivity|]. split; [reflexivity|]. split; [lia|assumption].
  - inversion_clear Hnd as [|? ? He Hnd'].
    assert (Hf : find_in e (elements s) = false).
    { destruct (find_in e (elements s)) eqn:Hf; auto. exfalso. apply He.
      apply find_in_InA in Hf. apply InA_app_iff. now right. }
    destruct (Add_below_threshold s e HI Hf) as (s1 & Ha & Hc1 & Hs1 & Hperm & HI1);
      [lia|lia|].
    cbn [step]. rewrite Ha. cbn [bind snd].
    destruct (IH s1 HI1) as (s' & Hrun & Hc' & Hs' & HI').
    + apply (distinct_perm (e :: l ++ elements s)).
      * rewrite Hperm. apply Permutation_middle.
      * constructor; assumption.
    + lia.
    + lia.
    + exists s'. split; [assumption|]. split; [lia|]. split; [lia|assumption].
Qed.

(** * The specified properties *)

(** C1. Membership correctness: after any sequence of [Add], [Remove] (and
    [Contains]) calls on a freshly constructed set of positive capacity, the
    sequence runs to the end and [Contains x] returns true exactly when some
    call added an element equal to [x] and no later call removed one; this is
    also the value computed by folding the calls from "absent". *)
Theorem membership_correct (n : nat) (ops : list op) (x : T) :
  (0 < n)%nat ->
  exists s b,
    run ops (HashSetCoarseGrained n) = Some s /\
    Contains s x = Some b /\
    b = net_present x ops /\
    (b = true <-> added_and_kept x ops).
Proof using eqb_sym eqb_trans hash_eqb.
  intros Hn. pose proof (Inv_new n Hn) as HI.
  destruct (run_membership ops _ (inv_capacity _ HI) (inv_placed _ HI))
    as (s & Hrun & Hcap & Hp & _ & Hmem).
  exists s, (net_present x ops). repeat split.
  - exact Hrun.
  - unfold Contains. rewrite Contains_elements by assumption.
    rewrite Hmem. unfold HashSetCoarseGrained, elements at 1; simpl.
    now rewrite concat_repeat_nil.
  - apply net_present_iff.
  - apply net_present_iff.
Qed.

(** What [std::find] answers, said with the elements of the bucket. *)
Lemma find_in_none_iff (x : T) (l : list T) :
  find_in x l = false <-> forall y, In y l -> eqb y x = false.
Proof.
  split.
  - intros Hf y Hy. destruct (eqb y x) eqn:Hyx; auto.
    rewrite <- Hf. symmetry. apply find_in_iff. eauto.
  - intros Hall. destruct (find_in x l) eqn:Hf; auto.
    apply find_in_iff in Hf as (y & Hy & Hyx). rewrite (Hall y Hy) in Hyx.
    discriminate.
Qed.

(** C2. The contract of [Add], on any state with at least one bucket whose
    counter is not at the top of [size_t].  Let [bucket] be the bucket at
    index [hash elem mod capacity].  The membership test of [Add] answers
    true exactly when [bucket] holds an element equal to [elem].  When it
    does (or, in a state where each element sits in the bucket of its hash,
    when any bucket does), [Add] returns false and the state is unchanged.
    When no element of [bucket] equals [elem], [elem] is appended to
    [bucket] and to no other, the counter grows by exactly one, [Policy] is
    evaluated on that state and decides between returning it and returning
    its [Resize] (twice the capacity), [Add] returns true, the stored
    elements are the old ones and [elem], [Contains elem] is then true, and
    a second [Add] of [elem] returns false and changes nothing. *)
Theorem Add_contract (s : HashSet) (elem : T) :
  0 < capacity s ->
  0 <= set_size_ s < size_modulus - 1 ->
  let i := home s elem in
  let bucket := nth i (table_ s) [] in
  Z.of_nat i = hash elem mod capacity s /\
  (Contains_ s elem = Some true <->
   exists y, In y bucket /\ eqb y elem = true) /\
  (Contains_ s elem = Some false <->
   forall y, In y bucket -> eqb y elem = false) /\
  ((exists y, In y bucket /\ eqb y elem = true) ->
   Add s elem = Some (false, s)) /\
  (placed s -> (exists y, In y (elements s) /\ eqb y elem = true) ->
   Add s elem = Some (false, s)) /\
  ((forall y, In y bucket -> eqb y elem = false) ->
   let s1 := insert_at s i elem in
   nth i (table_ s1) [] = bucket ++ [elem] /\
   (forall j, j <> i -> nth j (table_ s1) [] = nth j (table_ s) []) /\
   length (table_ s1) = length (table_ s) /\
   set_size_ s1 = set_size_ s + 1 /\
   exists s',
     Add s elem = Some (true, s') /\
     Size s' = Size s + 1 /\
     Permutation (elements s') (elem :: elements s) /\
     ((Policy s1 = Some false /\ s' = s1) \/
      (Policy s1 = Some true /\ Resize s1 = Some s' /\
       capacity s' = 2 * capacity s)) /\
     Contains s' elem = Some true /\
     Add s' elem = Some (false, s')).
Proof using eqb_refl hash_eqb.
  intros Hcap Hsz i bucket. pose proof (home_index s elem Hcap) as Hi.
  fold i in Hi.
  destruct (bucket_index_inv _ _ _ Hi) as [_ Hmod].
  assert (Hch : Contains_ s elem = Some (find_in elem bucket))
    by (apply Contains_home; assumption).
  assert (Htrue : Contains_ s elem = Some true <->
                  exists y, In y bucket /\ eqb y elem = true).
  { rewrite Hch, <- find_in_iff. split; [now intros [= ->] | now intros ->]. }
  assert (Hfalse : Contains_ s elem = Some false <->
                   forall y, In y bucket -> eqb y elem = false).
  { rewrite Hch, <- find_in_none_iff.
    split; [now intros [= ->] | now intros ->]. }
  split; [exact Hmod|]. split; [exact Htrue|]. split; [exact Hfalse|].
  split; [|split].
  - intros Hin. apply Add_present. now apply Htrue.
  - intros Hp Hin. apply Add_present.
    rewrite Contains_elements by assumption. f_equal. now apply find_in_iff.
  - intros Hnone s1. apply Hfalse in Hnone as Hc.
    destruct (insert_at_bucket s i elem Hi) as [Hsame Hother].
    assert (Hs1 : set_size_ s1 = set_size_ s + 1)
      by (unfold s1, insert_at; simpl; apply wrap_small; lia).
    pose proof (insert_at_elements s i elem Hi) as Hperm1. fold s1 in Hperm1.
    split; [exact Hsame|]. split; [exact Hother|].
    split; [unfold s1, insert_at; simpl; apply update_bucket_length|].
    split; [exact Hs1|].
    assert (Hafter : forall s', Add s elem = Some (true, s') ->
              Contains s' elem = Some true /\ Add s' elem = Some (false, s')).
    { intros s' Ha. pose proof (Add_contains s elem true s' Ha) as Hc'.
      split; [exact Hc' | now apply Add_present]. }
    destruct (Add_absent s elem Hc)
      as [[Hpol H]|[Hpol (s2 & Hr & H & Hc2 & Hs2 & Hperm & _)]];
      fold i in Hpol, H; fold s1 in Hpol, H.
    + exists s1. destruct (Hafter s1 H) as [Hc' Ha'].
      split; [exact H|]. split; [exact Hs1|]. split; [exact Hperm1|].
      split; [left; split; [exact Hpol | reflexivity]|].
      split; assumption.
    + fold i in Hr, Hs2, Hperm. fold s1 in Hr, Hs2, Hperm.
      exists s2. destruct (Hafter s2 H) as [Hc' Ha'].
      split; [exact H|]. split; [unfold Size; lia|].
      split; [now rewrite Hperm|].
      split; [right; split; [exact Hpol | split; assumption]|].
      split; assumption.
Qed.

(** C3. The contract of [Remove], on any state with at least one bucket
    whose counter is the number of stored elements.  Let [bucket] be the
    bucket at index [hash elem mod capacity].  When no element of [bucket]
    equals [elem] (as on every set without elements, where the counter is
    0), [Remove] returns false and the state is unchanged.  When some element
    of [bucket] equals [elem], [Remove] returns true; the new bucket is the
    old one without the elements equal to [elem], the others staying in
    order (one element less when the bucket has no two equal elements); no
    other bucket changes, nor does the number of buckets; the counter drops
    by exactly one; and [Contains elem] is then false. *)
Theorem Remove_contract (s : HashSet) (elem : T) :
  0 < capacity s ->
  counted s ->
  set_size_ s < size_modulus ->
  let i := home s elem in
  let bucket := nth i (table_ s) [] in
  Z.of_nat i = hash elem mod capacity s /\
  (Contains_ s elem = Some true <->
   exists y, In y bucket /\ eqb y elem = true) /\
  ((forall y, In y bucket -> eqb y elem = false) ->
   Remove s elem = Some (false, s)) /\
  (elements s = [] -> Remove s elem = Some (false, s) /\ Size s = 0) /\
  ((exists y, In y bucket /\ eqb y elem = true) ->
   exists s',
     Remove s elem = Some (true, s') /\
     nth i (table_ s') [] = filter (fun y => negb (eqb y elem)) bucket /\
     (forall y, In y (nth i (table_ s') []) <->
                In y bucket /\ eqb y elem = false) /\
     (NoDupA same bucket -> S (length (nth i (table_ s') [])) = length bucket) /\
     (forall j, j <> i -> nth j (table_ s') [] = nth j (table_ s) []) /\
     length (table_ s') = length (table_ s) /\
     capacity s' = capacity s /\
     Size s' = Size s - 1 /\
     Contains s' elem = Some false).
Proof using eqb_refl eqb_sym eqb_trans.
  intros Hcap Hn Hr i bucket. pose proof (home_index s elem Hcap) as Hi.
  fold i in Hi.
  destruct (bucket_index_inv _ _ _ Hi) as [_ Hmod].
  assert (Hch : Contains_ s elem = Some (find_in elem bucket))
    by (apply Contains_home; assumption).
  assert (Htrue : Contains_ s elem = Some true <->
                  exists y, In y bucket /\ eqb y elem = true).
  { rewrite Hch, <- find_in_iff. split; [now intros [= ->] | now intros ->]. }
  split; [exact Hmod|]. split; [exact Htrue|]. split; [|split].
  - intros Hnone. apply Remove_absent. rewrite Hch. f_equal.
    now apply find_in_none_iff.
  - intros Hel. split.
    + apply Remove_absent. rewrite Hch. f_equal.
      destruct (find_in elem bucket) eqn:Hf; auto.
      apply find_in_nonempty in Hf. fold (elements s) in Hf.
      rewrite Hel in Hf. simpl in Hf. lia.
    + unfold Size. rewrite Hn, Hel. reflexivity.
  - intros Hin. apply Htrue in Hin as Hc.
    assert (Hf : find_in elem bucket = true) by (rewrite Hch in Hc; now injection Hc).
    exists (erase_at s i elem).
    destruct (erase_at_bucket s i elem Hi) as [Hsame Hother].
    split; [now apply Remove_present|]. split; [exact Hsame|]. split; [|split].
    + intros y. rewrite Hsame. unfold erase_remove. rewrite filter_In.
      destruct (eqb y elem); simpl; intuition congruence.
    + intros Hnd. rewrite Hsame. now apply length_erase.
    + split; [exact Hother|].
      split; [unfold erase_at; simpl; apply update_bucket_length|].
      split; [apply erase_at_capacity|]. split.
      * unfold Size, erase_at; simpl. apply wrap_small.
        apply find_in_nonempty in Hf. unfold counted, elements in Hn. lia.
      * unfold Contains. rewrite Contains_home by now rewrite erase_at_capacity.
        unfold home at 1. rewrite erase_at_capacity. fold (home s elem). fold i.
        rewrite Hsame, find_in_erase. now rewrite eqb_refl.
Qed.

(** C4. The resize policy.  In an [Add] that returns true, let [s1] be the
    state after the push and the increment of the counter.  The capacity
    doubles during the call exactly when [set_size_ / capacity] of [s1],
    a truncating division, exceeds 4.  When it does not, the call returns
    [s1]; when it does, the call returns [Resize s1]: a table of exactly
    twice as many buckets, holding the same elements as [s1], each in the
    bucket at index [hash mod] the new capacity. *)
Theorem resize_policy (s : HashSet) (elem : T) (s' : HashSet) :
  Add s elem = Some (true, s') ->
  let s1 := insert_at s (home s elem) elem in
  let q := set_size_ s1 / capacity s1 in
  bucket_capacity_ = 4 /\
  set_size_ s1 = wrap (set_size_ s + 1) /\
  capacity s1 = capacity s /\
  q = Z.quot (set_size_ s1) (capacity s1) /\
  (capacity s' = 2 * capacity s <-> 4 < q) /\
  (q <= 4 -> s' = s1) /\
  (4 < q ->
   Resize s1 = Some s' /\
   length (table_ s') = (2 * length (table_ s))%nat /\
   Permutation (elements s') (elements s1) /\
   forall i e, In e (nth i (table_ s') []) ->
               Z.of_nat i = hash e mod capacity s').
Proof.
  intros Ha s1 q.
  assert (Hc : Contains_ s elem = Some false).
  { unfold Add in Ha. destruct (Contains_ s elem) as [[|]|]; simpl in Ha;
      congruence. }
  pose proof (Contains_defined _ _ _ Hc) as Hcap.
  assert (Hcap1 : capacity s1 = capacity s) by apply insert_at_capacity.
  pose proof (insert_at_set_size s (home s elem) elem) as Hrange. fold s1 in Hrange.
  assert (Hpol : Policy s1 = Some (4 <? q)).
  { unfold q. rewrite Policy_pos by lia. reflexivity. }
  split; [reflexivity|]. split; [reflexivity|]. split; [assumption|].
  split; [symmetry; apply Z.quot_div_nonneg; lia|].
  destruct (Add_absent s elem Hc) as [[Hp H]|[Hp (s2 & Hr & H & Hc2 & Hs2 & Hperm & Hpl)]];
    fold s1 in Hp, H; rewrite H in Ha; injection Ha as <-;
    rewrite Hpol in Hp; injection Hp as Hq.
  - apply Z.ltb_ge in Hq. split; [|split]; [split| |]; intros; try lia; auto.
  - apply Z.ltb_lt in Hq. fold s1 in Hr, Hperm.
    split; [|split]; [split| |]; intros; try lia; auto.
    repeat split; auto.
    + unfold capacity in Hc2. lia.
    + symmetry. now apply Hpl.
Qed.

(** C5, as the code has it.  The constructor validates nothing itself.
    A call is refused only by [std::vector]: with [std::length_error]
    exactly when [initial_capacity] exceeds [max_size()], or with
    [std::bad_alloc]; it returns whenever the size is within [max_size()]
    and the allocation succeeds, and always for [initial_capacity = 0].
    Whenever it returns, the set has exactly [initial_capacity] empty
    buckets and a counter of 0; it has a bucket to hash into exactly when
    [initial_capacity] is positive, and then it satisfies the data-model
    invariants and [Contains] answers false for every element. *)
Theorem constructor_contract (max_size : Z) (alloc_fails : bool)
        (initial_capacity : Z) :
  0 <= initial_capacity ->
  (construct max_size alloc_fails initial_capacity = LengthError <->
   max_size < initial_capacity) /\
  (initial_capacity <= max_size -> alloc_fails = false ->
   exists s, construct max_size alloc_fails initial_capacity = Constructed s) /\
  (0 <= max_size ->
   construct max_size alloc_fails 0 = Constructed (HashSetCoarseGrained 0)) /\
  (forall s,
     construct max_size alloc_fails initial_capacity = Constructed s ->
     Size s = 0 /\
     capacity s = initial_capacity /\
     (forall i, nth i (table_ s) [] = []) /\
     elements s = [] /\
     (0 < capacity s <-> 0 < initial_capacity) /\
     (0 < initial_capacity ->
      Inv s /\ forall elem, Contains s elem = Some false)).
Proof.
  intros Hn. unfold construct. split; [|split; [|split]].
  - destruct (Z.ltb_spec max_size initial_capacity) as [Hlt|Hge].
    + tauto.
    + destruct ((0 <? initial_capacity) && alloc_fails);
        split; intros H; try discriminate; lia.
  - intros Hle ->. destruct (Z.ltb_spec max_size initial_capacity); [lia|].
    rewrite andb_false_r. eauto.
  - intros Hmax. destruct (Z.ltb_spec max_size 0); [lia|]. reflexivity.
  - intros s Hs.
    destruct (max_size <? initial_capacity); [discriminate|].
    destruct ((0 <? initial_capacity) && alloc_fails); [discriminate|].
    injection Hs as <-.
    set (n := Z.to_nat initial_capacity).
    assert (Hcap : capacity (HashSetCoarseGrained n) = initial_capacity)
      by (unfold capacity, n; simpl; rewrite repeat_length; lia).
    assert (Hnth : forall i, nth i (table_ (HashSetCoarseGrained n)) [] = [])
      by (intros i; simpl; apply nth_repeat).
    split; [reflexivity|]. split; [assumption|]. split; [assumption|].
    split; [apply concat_repeat_nil|]. split; [lia|].
    intros Hpos. split; [apply Inv_new; lia|].
    intros elem. unfold Contains. rewrite Contains_home by lia.
    now rewrite Hnth.
Qed.

(** C7. Bucket placement and rehash fidelity.  Every sequence of calls on a
    freshly constructed set of positive capacity runs to a state in which
    each element of bucket [i] has [hash e mod capacity = i]; and whenever
    [Resize] returns, the scan of all buckets of the new table is a
    permutation of the scan of the old one: nothing lost, nothing doubled. *)
Theorem rehash_fidelity (n : nat) (ops : list op) :
  (0 < n)%nat ->
  (exists s,
     run ops (HashSetCoarseGrained n) = Some s /\
     forall i e, In e (nth i (table_ s) []) ->
                 Z.of_nat i = hash e mod capacity s) /\
  (forall s s', Resize s = Some s' ->
                Permutation (elements s') (elements s)).
Proof using hash_eqb.
  intros Hn. pose proof (Inv_new n Hn) as HI. split.
  - destruct (run_placed ops _ (inv_capacity _ HI) (inv_placed _ HI))
      as (s & Hrun & _ & Hp).
    exists s. split; [assumption|]. intros i e He. symmetry. now apply Hp.
  - intros s s' Hr. now apply Resize_replaces in Hr.
Qed.

(** C8. The data-model invariants.  Take any sequence of calls on a freshly
    constructed set of positive capacity, shorter than [2^64] so that the
    counter cannot wrap, and cut it in two anywhere.  Both parts run to the
    end; in the final state no two stored elements are equal and the counter
    is the sum of the bucket lengths; and the capacity at the cut is at
    least the initial one and at most the final one. *)
Theorem data_model_invariants (n : nat) (ops1 ops2 : list op) :
  (0 < n)%nat ->
  Z.of_nat (length (ops1 ++ ops2)) < size_modulus ->
  exists s1 s2,
    run ops1 (HashSetCoarseGrained n) = Some s1 /\
    run ops2 s1 = Some s2 /\
    run (ops1 ++ ops2) (HashSetCoarseGrained n) = Some s2 /\
    NoDupA same (elements s2) /\
    Size s2 = Z.of_nat (list_sum (map (@length T) (table_ s2))) /\
    Z.of_nat n <= capacity s1 <= capacity s2.
Proof using eqb_sym eqb_trans hash_eqb.
  intros Hn Hlen. rewrite length_app, Nat2Z.inj_add in Hlen.
  pose proof (Inv_new n Hn) as HI.
  destruct (run_Inv ops1 _ HI) as (s1 & Hrun1 & HI1 & Hcap1 & Hsz1);
    [simpl; lia|].
  destruct (run_Inv ops2 _ HI1) as (s2 & Hrun2 & HI2 & Hcap2 & Hsz2);
    [simpl in Hsz1; lia|].
  exists s1, s2. split; [assumption|]. split; [assumption|].
  split; [rewrite run_app, Hrun1; exact Hrun2|].
  split; [exact (inv_distinct _ HI2)|]. split.
  - unfold Size. rewrite (inv_counted _ HI2). unfold elements.
    now rewrite length_concat.
  - assert (Hcap0 : capacity (HashSetCoarseGrained n) = Z.of_nat n)
      by (unfold capacity; simpl; now rewrite repeat_length).
    lia.
Qed.

(** C9, as the code has it.  When an allocation fails in [Resize] before
    [table_.clear()], that is while [new_table] is constructed or filled, the
    exception leaves the object exactly as [Resize] found it; and a
    [Resize] that returns has done the whole rehash. *)
Theorem resize_failure_before_clear (fails : alloc_site -> bool) (s s' : HashSet) :
  fails AssignAlloc = false ->
  (Resize_alloc fails s = ResizeThrew s' -> s' = s) /\
  (Resize_alloc fails s = ResizeReturned s' -> Resize s = Some s').
Proof.
  intros Hassign. unfold Resize_alloc, Resize. rewrite Hassign.
  destruct (fails NewTableAlloc).
  - split; [now intros [= <-] | discriminate].
  - destruct (rehash_table_alloc fails 0 (table_ s) _) as [nt| |] eqn:Hrun.
    + split; [discriminate|]. intros [= <-].
      now rewrite (rehash_table_alloc_completed _ _ _ _ _ Hrun).
    + split; [now intros [= <-] | discriminate].
    + split; discriminate.
Qed.

(** C10. [Resize] never writes the counter.  So when an [Add] returns true
    after a resize, on a state whose counter is not at the top of [size_t],
    [Size] is exactly one more than before the call, and the added element
    is among the rehashed ones, in the bucket of its hash under the new
    capacity. *)
Theorem resize_frame (s : HashSet) (elem : T) (s' : HashSet) :
  0 <= set_size_ s < size_modulus - 1 ->
  Add s elem = Some (true, s') ->
  Policy (insert_at s (home s elem) elem) = Some true ->
  (forall t t', Resize t = Some t' -> Size t' = Size t) /\
  Resize (insert_at s (home s elem) elem) = Some s' /\
  Size s' = Size s + 1 /\
  In elem (elements s') /\
  In elem (nth (home s' elem) (table_ s') []).
Proof.
  intros Hsz Ha Hpol.
  assert (Hc : Contains_ s elem = Some false).
  { unfold Add in Ha. destruct (Contains_ s elem) as [[|]|]; simpl in Ha;
      congruence. }
  pose proof (Contains_defined _ _ _ Hc) as Hcap.
  split; [exact Resize_set_size|].
  destruct (Add_absent s elem Hc) as [[Hp _]|[_ (s2 & Hr & H & Hc2 & Hs2 & Hperm & Hpl)]];
    [congruence|].
  rewrite H in Ha. injection Ha as <-.
  assert (Hin : In elem (elements s2)).
  { apply (Permutation_in elem (symmetry Hperm)).
    apply (Permutation_in elem
             (symmetry (insert_at_elements s _ elem (home_index s elem Hcap)))).
    now left. }
  split; [assumption|]. split; [|split; [assumption|]].
  - unfold Size. rewrite Hs2. unfold insert_at; simpl. apply wrap_small. lia.
  - apply in_concat_nth in Hin as (j & Hj).
    pose proof (Hpl j elem Hj) as Hmod. fold (capacity s2) in Hmod.
    unfold home. rewrite Hmod, Nat2Z.id. exact Hj.
Qed.

Lemma rehash_bucket_alloc_undefined (fails : alloc_site -> bool) (b k : nat)
      (l : list T) (nt : list (list T)) :
  rehash_bucket_alloc fails b k l nt = Undefined ->
  rehash_bucket (Some nt) l = None.
Proof.
  unfold rehash_bucket. revert k nt.
  induction l as [|e l IH]; intros k nt; simpl; [discriminate|].
  destruct (bucket_index (Z.of_nat (length nt)) e) as [i|]; simpl.
  - destruct (fails (PushBackAlloc b k)); [discriminate|]. apply IH.
  - intros _. apply rehash_elem_None.
Qed.

Lemma rehash_table_alloc_undefined (fails : alloc_site -> bool) (b : nat)
      (tbl nt : list (list T)) :
  rehash_table_alloc fails b tbl nt = Undefined ->
  fold_left rehash_bucket tbl (Some nt) = None.
Proof.
  revert b nt. induction tbl as [|bucket tbl IH]; intros b nt; simpl;
    [discriminate|].
  destruct (fails (BucketCopyAlloc b)); [discriminate|].
  destruct (rehash_bucket_alloc fails b 0 bucket nt) as [nt1| |] eqn:Hb;
    try discriminate.
  - rewrite (rehash_bucket_alloc_completed _ _ _ _ _ _ Hb). apply IH.
  - intros _. rewrite (rehash_bucket_alloc_undefined _ _ _ _ _ Hb).
    apply rehash_bucket_None.
Qed.

(** * Further properties of the operations *)

(** X1. A set without buckets cannot be used, and a set with a bucket
    always can: with capacity 0 every call of [Contains], [Add] and [Remove]
    takes a remainder modulo zero; with a positive capacity each of them
    returns, whatever the counter and the buckets hold.  In particular the
    doubling inside [Add] never overflows to a table without buckets. *)
Theorem defined_iff_bucket (s : HashSet) (elem : T) :
  (capacity s = 0 ->
   Contains s elem = None /\ Add s elem = None /\ Remove s elem = None) /\
  (0 < capacity s ->
   (exists b, Contains s elem = Some b) /\
   (exists r s', Add s elem = Some (r, s') /\ 0 < capacity s') /\
   (exists r s', Remove s elem = Some (r, s') /\ 0 < capacity s')).
Proof.
  split.
  - intros Hz. unfold Contains, Add, Remove, Contains_, bucket_index.
    rewrite Hz. auto.
  - intros Hcap. split; [|split].
    + unfold Contains. rewrite Contains_home by assumption. eauto.
    + pose proof (Contains_home s elem Hcap) as Hc.
      destruct (find_in elem (nth (home s elem) (table_ s) [])).
      * exists false, s. split; [now apply Add_present | assumption].
      * destruct (Add_absent s elem Hc) as [[_ H]|[_ (s2 & _ & H & Hc2 & _)]].
        -- eexists _, _. split; [exact H|]. now rewrite insert_at_capacity.
        -- exists true, s2. split; [exact H | lia].
    + pose proof (Contains_home s elem Hcap) as Hc.
      destruct (find_in elem (nth (home s elem) (table_ s) [])).
      * eexists _, _. split; [now apply Remove_present|].
        now rewrite erase_at_capacity.
      * eexists _, _. split; [now apply Remove_absent | assumption].
Qed.

(** X2. Lookup after update.  Whenever [Add elem] returns, with either
    result, [Contains elem] is true in the state it leaves; whenever
    [Remove elem] returns, [Contains elem] is false in the state it leaves,
    and a second [Remove elem] returns false and changes nothing. *)
Theorem lookup_after_update (s : HashSet) (elem : T) (r : bool) (s' : HashSet) :
  (Add s elem = Some (r, s') -> Contains s' elem = Some true) /\
  (Remove s elem = Some (r, s') ->
   Contains s' elem = Some false /\ Remove s' elem = Some (false, s')).
Proof using eqb_refl eqb_sym eqb_trans hash_eqb.
  split.
  - apply Add_contains.
  - intros Hr.
    assert (Hgone : Contains_ s' elem = Some false).
    { assert (Hcap : 0 < capacity s).
      { unfold Remove in Hr.
        destruct (Contains_ s elem) as [b|] eqn:Hc; [|discriminate].
        now apply Contains_defined in Hc. }
      pose proof (Contains_home s elem Hcap) as Hc.
      destruct (find_in elem (nth (home s elem) (table_ s) [])) eqn:Hf.
      - rewrite (Remove_present s elem Hc) in Hr. injection Hr as <- <-.
        rewrite Contains_home by now rewrite erase_at_capacity.
        unfold home at 1. rewrite erase_at_capacity. fold (home s elem).
        destruct (erase_at_bucket s _ elem (home_index s elem Hcap)) as [-> _].
        now rewrite find_in_erase, eqb_refl.
      - rewrite (Remove_absent s elem Hc) in Hr. now injection Hr as <- <-. }
    split; [exact Hgone | now apply Remove_absent].
Qed.

(** X3. [Add] and [Remove] of one element leave every other element alone:
    in a state where each element sits in the bucket of its hash, a call on
    [elem] does not change what [Contains] answers for any [x] that is not
    equal to [elem], also when the call resizes the table. *)
Theorem other_elements_untouched (s : HashSet) (elem x : T)
        (r : bool) (s' : HashSet) :
  placed s ->
  eqb elem x = false ->
  (Add s elem = Some (r, s') -> Contains s' x = Contains s x) /\
  (Remove s elem = Some (r, s') -> Contains s' x = Contains s x).
Proof using eqb_sym eqb_trans hash_eqb.
  intros Hp Hne.
  assert (Hstep : forall o, (o = OpAdd elem \/ o = OpRemove elem) ->
            step s o = Some s' -> Contains s' x = Contains s x).
  { intros o Ho Hs.
    destruct (step_shape s o s' Hp Hs) as (Hcap' & Hp' & _).
    assert (Hcap : 0 < capacity s).
    { destruct Ho as [-> | ->]; simpl in Hs.
      - destruct (Add s elem) as [[r0 s0]|] eqn:Ha; [|discriminate].
        unfold Add in Ha. destruct (Contains_ s elem) as [b|] eqn:Hc;
          [|discriminate]. now apply Contains_defined in Hc.
      - destruct (Remove s elem) as [[r0 s0]|] eqn:Ha; [|discriminate].
        unfold Remove in Ha. destruct (Contains_ s elem) as [b|] eqn:Hc;
          [|discriminate]. now apply Contains_defined in Hc. }
    unfold Contains. rewrite !Contains_elements by assumption. f_equal.
    rewrite (step_membership s o s' x Hp Hs).
    destruct Ho as [-> | ->]; simpl; now rewrite Hne. }
  split; intros H.
  - apply (Hstep (OpAdd elem)); simpl; auto. now rewrite H.
  - apply (Hstep (OpRemove elem)); simpl; auto. now rewrite H.
Qed.

(** X4. One bucket is enough.  In a state with at least one bucket where
    each element sits in the bucket of its hash, searching the single bucket
    that [Contains] looks at gives the same answer as searching all of
    them. *)
Theorem bucket_lookup_is_full_scan (s : HashSet) (x : T) :
  0 < capacity s -> placed s ->
  Contains s x = Some (find_in x (elements s)) /\
  (Contains s x = Some true <-> exists y, In y (elements s) /\ eqb y x = true).
Proof using hash_eqb.
  intros Hcap Hp. unfold Contains.
  rewrite Contains_elements by assumption. split; [reflexivity|].
  rewrite <- find_in_iff. split; [now intros [= ->] | now intros ->].
Qed.

(** X5. [Resize] changes no answer.  On a state with at least one bucket
    whose doubled capacity is still a [size_t], where each element sits in
    the bucket of its hash, [Resize] returns, the capacity is doubled, the
    counter is the same, and [Contains] answers for every element what it
    answered before. *)
Theorem Resize_keeps_answers (s : HashSet) :
  0 < capacity s -> capacity s * 2 < size_modulus -> placed s ->
  exists s',
    Resize s = Some s' /\
    capacity s' = 2 * capacity s /\
    Size s' = Size s /\
    forall x, Contains s' x = Contains s x.
Proof using hash_eqb.
  intros Hcap Hsmall Hp.
  assert (Hw : wrap (capacity s * 2) = capacity s * 2)
    by (apply wrap_small; lia).
  destruct (Resize_spec s) as (s' & Hr & Hc & Hs & Hperm & Hp'); [lia|].
  exists s'. split; [assumption|]. split; [lia|]. split; [assumption|].
  intros x. unfold Contains.
  rewrite !Contains_elements by (assumption || lia).
  now rewrite (find_in_perm x _ _ Hperm).
Qed.

(** X6. Whatever allocation fails in [Resize], the exception leaves the
    counter as it was and the table either as it was or without any bucket,
    never with some of the elements moved; a [Resize] that returns has done
    the whole rehash; and failing allocations add no undefined behaviour. *)
Theorem Resize_never_partial (fails : alloc_site -> bool) (s s' : HashSet) :
  (Resize_alloc fails s = ResizeThrew s' ->
   set_size_ s' = set_size_ s /\ (table_ s' = table_ s \/ table_ s' = [])) /\
  (Resize_alloc fails s = ResizeReturned s' -> Resize s = Some s') /\
  (Resize_alloc fails s = ResizeUndefined -> Resize s = None).
Proof.
  unfold Resize_alloc, Resize.
  destruct (fails NewTableAlloc).
  { split; [intros [= <-]; auto | split; discriminate]. }
  destruct (rehash_table_alloc fails 0 (table_ s) _) as [nt| |] eqn:Hrun.
  - rewrite (rehash_table_alloc_completed _ _ _ _ _ Hrun).
    destruct (fails AssignAlloc).
    + split; [intros [= <-]; auto | split; discriminate].
    + split; [discriminate | split; [now intros [= <-] | discriminate]].
  - split; [intros [= <-]; auto | split; discriminate].
  - split; [discriminate | split; [discriminate|]]. intros _.
    now rewrite (rehash_table_alloc_undefined _ _ _ _ Hrun).
Qed.

(** ** Adding and then removing *)

Lemma erase_remove_perm (y : T) (l l' : list T) :
  Permutation l l' -> Permutation (erase_remove y l) (erase_remove y l').
Proof.
  unfold erase_remove.
  induction 1 as [|x l l' _ IH|x z l|l l' l'' _ IH1 _ IH2]; simpl.
  - constructor.
  - destruct (negb (eqb x y)); auto.
  - destruct (negb (eqb x y)), (negb (eqb z y)); auto. constructor.
  - now rewrite IH1.
Qed.

Lemma update_bucket_twice (f g : list T -> list T) (i : nat) (tbl : list (list T)) :
  update_bucket f i (update_bucket g i tbl)
  = update_bucket (fun b => f (g b)) i tbl.
Proof.
  revert i. induction tbl as [|b rest IH]; intros [|j]; simpl; auto.
  now rewrite IH.
Qed.

Lemma update_bucket_fixed (f : list T -> list T) (i : nat) (tbl : list (list T)) :
  f (nth i tbl []) = nth i tbl [] -> update_bucket f i tbl = tbl.
Proof.
  revert i. induction tbl as [|b rest IH]; intros [|j] Hf; simpl in *; auto.
  - now rewrite Hf.
  - now rewrite IH.
Qed.

Lemma find_in_false (x : T) (l : list T) :
  find_in x l = false -> forall z, In z l -> eqb z x = false.
Proof.
  intros Hf z Hz. destruct (eqb z x) eqn:Hzx; auto.
  rewrite <- Hf. symmetry. apply find_in_iff. eauto.
Qed.

Lemma wrap_up_down (z : Z) :
  0 <= z < size_modulus -> wrap (wrap (z + 1) - 1) = z.
Proof.
  intros Hz. unfold wrap. rewrite Zminus_mod_idemp_l.
  replace (z + 1 - 1) with z by lia. now apply Z.mod_small.
Qed.

(** X7. Adding an absent element and removing it again.  In a state where
    each element sits in the bucket of its hash and the counter is a
    [size_t], both calls return true and leave the counter, the stored
    elements and every answer of [Contains] as they were; when the [Add]
    did not resize, the state is exactly the one before the two calls. *)
Theorem Add_then_Remove (s : HashSet) (elem : T) :
  placed s ->
  0 <= set_size_ s < size_modulus ->
  Contains s elem = Some false ->
  exists s1 s2,
    Add s elem = Some (true, s1) /\
    Remove s1 elem = Some (true, s2) /\
    Size s2 = Size s /\
    Permutation (elements s2) (elements s) /\
    (forall x, Contains s2 x = Contains s x) /\
    (capacity s1 = capacity s -> s2 = s).
Proof using eqb_refl eqb_sym eqb_trans hash_eqb.
  intros Hp Hsz Hc. unfold Contains in Hc.
  pose proof (Contains_defined _ _ _ Hc) as Hcap.
  assert (Hex : exists s1, Add s elem = Some (true, s1)).
  { destruct (Add_absent s elem Hc) as [[_ H]|[_ (s2 & _ & H & _)]]; eauto. }
  destruct Hex as (s1 & Ha).
  destruct (Add_effect s elem true s1 Hp Ha) as (Hcap1 & Hp1 & _ & Hf & Hperm & Hs1).
  pose proof (Add_contains s elem true s1 Ha) as Hc1.
  pose proof (Remove_present s1 elem Hc1) as Hr.
  set (s2 := erase_at s1 (home s1 elem) elem) in *.
  assert (Hel : Permutation (elements s2) (elements s)).
  { unfold s2. rewrite erase_at_elements by auto using home_index.
    rewrite (erase_remove_perm elem _ _ Hperm).
    unfold erase_remove at 1. simpl. rewrite eqb_refl. simpl.
    fold (erase_remove elem (elements s)).
    rewrite erase_remove_absent; [reflexivity|].
    now apply find_in_false. }
  assert (Hs2 : set_size_ s2 = set_size_ s).
  { unfold s2, erase_at; simpl. rewrite Hs1. now apply wrap_up_down. }
  exists s1, s2. split; [assumption|]. split; [assumption|].
  split; [exact Hs2|]. split; [exact Hel|]. split.
  - intros x. unfold Contains.
    assert (Hp2 : placed s2)
      by (unfold s2; apply erase_at_placed; auto using home_index).
    assert (Hcap2 : 0 < capacity s2)
      by (unfold s2; now rewrite erase_at_capacity).
    rewrite !Contains_elements by assumption.
    now rewrite (find_in_perm x _ _ Hel).
  - intros Hsame.
    destruct (Add_absent s elem Hc) as [[_ H]|[_ (s3 & _ & H & Hc3 & _)]];
      rewrite H in Ha; injection Ha as Ha.
    + assert (Hhome : home s1 elem = home s elem)
        by (unfold home; now rewrite Hsame).
      assert (Htbl : table_ s2 = table_ s).
      { unfold s2. rewrite Hhome, <- Ha. unfold erase_at, insert_at; simpl.
        rewrite update_bucket_twice. apply update_bucket_fixed.
        unfold push_back. rewrite erase_remove_app.
        unfold erase_remove at 2. simpl. rewrite eqb_refl. simpl.
        rewrite app_nil_r. apply erase_remove_absent. apply find_in_false.
        rewrite Contains_home in Hc by assumption. now injection Hc. }
      destruct s as [sz tbl], s2 as [sz2 tbl2]; simpl in *. congruence.
    + subst s3. lia.
Qed.

(** ** The buckets against the reference set *)

Lemma step_call (s : HashSet) (o : op) :
  step s o = (r <- call s o ;; Some (snd r)).
Proof.
  destruct o as [e|e|e]; simpl; auto.
  destruct (Contains s e); reflexivity.
Qed.

Lemma call_refines (s : HashSet) (l : list T) (o : op) (r : bool) (s' : HashSet) :
  placed s -> Permutation (elements s) l ->
  call s o = Some (r, s') ->
  r = fst (ref_call l o) /\ Permutation (elements s') (snd (ref_call l o)).
Proof using hash_eqb.
  intros Hp Hl Hcall. destruct o as [e|e|e]; simpl in *.
  - destruct (Add_effect s e r s' Hp Hcall) as (_ & _ & _ & H). destruct r.
    + destruct H as (Hf & Hperm & _).
      rewrite <- (find_in_perm e _ _ Hl), Hf. simpl. split; [reflexivity|].
      rewrite Hperm, Hl. apply Permutation_cons_append.
    + destruct H as (-> & Hf).
      rewrite <- (find_in_perm e _ _ Hl), Hf. simpl. auto.
  - destruct (Remove_effect s e r s' Hp Hcall) as (_ & _ & _ & H). destruct r.
    + destruct H as (Hf & Hel & _).
      rewrite <- (find_in_perm e _ _ Hl), Hf. simpl. split; [reflexivity|].
      rewrite Hel. now apply erase_remove_perm.
    + destruct H as (-> & Hf).
      rewrite <- (find_in_perm e _ _ Hl), Hf. simpl. auto.
  - destruct (Contains s e) as [b|] eqn:Hc; [|discriminate].
    simpl in Hcall. injection Hcall as <- <-.
    unfold Contains in Hc. pose proof (Contains_defined _ _ _ Hc) as Hcap.
    rewrite Contains_elements in Hc by assumption. injection Hc as <-.
    now rewrite (find_in_perm e _ _ Hl).
Qed.

Lemma run_results_refines (ops : list op) (s : HashSet) (l : list T) :
  Inv s -> Permutation (elements s) l ->
  set_size_ s + Z.of_nat (length ops) < size_modulus ->
  exists s',
    run_results ops s = Some (fst (ref_results ops l), s') /\
    run ops s = Some s' /\ Inv s' /\
    Permutation (elements s') (snd (ref_results ops l)).
Proof using eqb_sym eqb_trans hash_eqb.
  revert s l. induction ops as [|o ops IH]; intros s l HI Hl Hroom;
    cbn [run run_results ref_results length] in *;
    rewrite ?Nat2Z.inj_succ in *.
  - exists s. auto.
  - destruct (step_total s o (inv_capacity s HI)) as (s1 & Hs).
    pose proof Hs as Hs'. rewrite step_call in Hs'.
    destruct (call s o) as [[r s1']|] eqn:Hcall; [|discriminate].
    cbn [bind snd] in Hs'. injection Hs' as ->.
    destruct (call_refines s l o r s1 (inv_placed s HI) Hl Hcall) as [Hr Hl1].
    destruct (step_Inv s o s1 HI ltac:(lia) Hs) as [HI1 Hsz1].
    destruct (IH s1 (snd (ref_call l o)) HI1 Hl1 ltac:(lia))
      as (s' & Hres & Hrun & HI' & Hl').
    exists s'. rewrite Hs. cbn [bind fst snd]. rewrite Hres. cbn [bind fst snd].
    rewrite Hr. auto.
Qed.

(** X8. The buckets behave like one list.  Every sequence of fewer than
    [2^64] calls on a freshly constructed set with at least one bucket
    returns, call by call, the values that the same calls return on a
    duplicate-free list searched from end to end; the elements stored at the
    end are those of that list, and [Size] is its length. *)
Theorem refines_reference_set (n : nat) (ops : list op) :
  (0 < n)%nat ->
  Z.of_nat (length ops) < size_modulus ->
  exists s,
    run_results ops (HashSetCoarseGrained n) = Some (fst (ref_results ops []), s) /\
    run ops (HashSetCoarseGrained n) = Some s /\
    Permutation (elements s) (snd (ref_results ops [])) /\
    Size s = Z.of_nat (length (snd (ref_results ops []))).
Proof using eqb_sym eqb_trans hash_eqb.
  intros Hn Hlen. pose proof (Inv_new n Hn) as HI.
  destruct (run_results_refines ops _ [] HI) as (s & Hres & Hrun & HI' & Hl).
  - unfold elements; simpl. now rewrite concat_repeat_nil.
  - simpl. lia.
  - exists s. repeat (split; [assumption|]).
    unfold Size. rewrite (inv_counted s HI'). now rewrite (Permutation_length Hl).
Qed.

(** ** How the capacity grows *)

(** One call either keeps the capacity, and then the counter is still under
    five times the capacity if it was, or doubles it, which happens when the
    counter reaches five times the capacity. *)
Lemma step_growth (s : HashSet) (o : op) (s' : HashSet) :
  Inv s -> set_size_ s + 1 < size_modulus ->
  set_size_ s < 5 * capacity s ->
  step s o = Some s' ->
  set_size_ s' < 5 * capacity s' /\
  (capacity s' = capacity s \/
   (capacity s' = 2 * capacity s /\ 5 * capacity s <= set_size_ s')).
Proof using eqb_sym eqb_trans hash_eqb.
  intros HI Hroom Hload Hs.
  pose proof (inv_capacity s HI) as Hcap.
  pose proof (inv_counted s HI) as Hn. unfold counted in Hn.
  destruct o as [e|e|e]; simpl in Hs.
  - destruct (Add s e) as [[r s1]|] eqn:Ha; [|discriminate].
    simpl in Hs. injection Hs as ->.
    destruct (Add_effect s e r s' (inv_placed s HI) Ha) as (_ & _ & _ & H).
    destruct r.
    + destruct H as (Hf & _ & Hsz). rewrite wrap_small in Hsz by lia.
      assert (Hc : Contains_ s e = Some false)
        by (rewrite Contains_elements by (auto using inv_placed); now rewrite Hf).
      destruct (Add_absent s e Hc) as [[Hpol H]|[Hpol (s2 & _ & H & Hc2 & _)]];
        rewrite H in Ha; injection Ha as Ha.
      * rewrite Policy_pos in Hpol by now rewrite insert_at_capacity.
        injection Hpol as Hpol. apply Z.ltb_ge in Hpol.
        rewrite insert_at_capacity in Hpol. unfold bucket_capacity_ in Hpol.
        assert (Hc' : capacity s' = capacity s)
          by (rewrite <- Ha; apply insert_at_capacity).
        rewrite wrap_small in Hpol by lia.
        assert (Hq : set_size_ s + 1 < 5 * capacity s).
        { destruct (Z.lt_ge_cases (set_size_ s + 1) (capacity s * 5))
            as [Hlt|Hge]; [lia|].
          pose proof (Z.div_le_lower_bound _ (capacity s) 5 Hcap Hge). lia. }
        split; [lia | left; assumption].
      * subst s2.
        rewrite Policy_pos in Hpol by now rewrite insert_at_capacity.
        injection Hpol as Hpol. apply Z.ltb_lt in Hpol.
        rewrite insert_at_capacity in Hpol. unfold bucket_capacity_ in Hpol.
        rewrite wrap_small in Hpol by lia.
        pose proof (Z.mul_div_le (set_size_ s + 1) (capacity s) Hcap) as Hmul.
        assert (Hfull : 5 * capacity s <= set_size_ s + 1) by nia.
        split; [lia|]. right. split; [assumption | lia].
    + destruct H as (-> & _). auto.
  - destruct (Remove s e) as [[r s1]|] eqn:Hr; [|discriminate].
    simpl in Hs. injection Hs as ->.
    destruct (Remove_Inv s e r s' HI Hr) as [_ Hle].
    destruct (Remove_effect s e r s' (inv_placed s HI) Hr) as (_ & _ & Hc & _).
    rewrite Hc. split; [lia | left; reflexivity].
  - destruct (Contains s e); [|discriminate]. simpl in Hs. injection Hs as ->.
    auto.
Qed.

Lemma run_growth (ops : list op) (s0 : HashSet) :
  Inv s0 -> set_size_ s0 < 5 * capacity s0 ->
  set_size_ s0 + Z.of_nat (length ops) < size_modulus ->
  exists s k,
    run ops s0 = Some s /\
    capacity s = capacity s0 * 2 ^ Z.of_nat k /\
    (forall pre post, ops = pre ++ post ->
       exists s1, run pre s0 = Some s1 /\ Size s1 < 5 * capacity s) /\
    ((0 < k)%nat ->
       exists pre post s1,
         ops = pre ++ post /\ run pre s0 = Some s1 /\
         5 * capacity s <= 2 * Size s1).
Proof using eqb_sym eqb_trans hash_eqb.
  revert s0. induction ops as [|o ops IH]; intros s0 HI Hload Hroom;
    cbn [run length] in *; rewrite ?Nat2Z.inj_succ in *.
  - exists s0, 0%nat. split; [reflexivity|]. split; [simpl; lia|]. split.
    + intros pre post Hsplit. symmetry in Hsplit.
      apply app_eq_nil in Hsplit as [-> _]. exists s0. auto.
    + lia.
  - pose proof (inv_capacity s0 HI) as Hcap.
    destruct (step_total s0 o Hcap) as (s1 & Hs). rewrite Hs. cbn [bind].
    destruct (step_Inv s0 o s1 HI ltac:(lia) Hs) as [HI1 Hsz1].
    destruct (step_growth s0 o s1 HI ltac:(lia) Hload Hs) as [Hload1 Hgrow].
    destruct (IH s1 HI1 Hload1 ltac:(lia)) as (s & k & Hrun & Hck & Hpre & Hwit).
    assert (Hpow : 1 <= 2 ^ Z.of_nat k) by (apply Z.pow_le_mono_r with (b := 0); lia).
    assert (Hprefix : forall pre post, o :: ops = pre ++ post ->
              exists s2, run pre s0 = Some s2 /\ Size s2 < 5 * capacity s).
    { intros [|o' pre] post Hsplit; simpl in Hsplit.
      - exists s0. split; [reflexivity|]. unfold Size.
        pose proof (inv_capacity s1 HI1). nia.
      - injection Hsplit as <- Hsplit.
        destruct (Hpre pre post Hsplit) as (s2 & Hrun2 & Hlt).
        exists s2. simpl. rewrite Hs. auto. }
    assert (Hlift : (0 < k)%nat ->
              exists pre post s2, o :: ops = pre ++ post /\
                run pre s0 = Some s2 /\ 5 * capacity s <= 2 * Size s2).
    { intros Hk. destruct (Hwit Hk) as (pre & post & s2 & -> & Hrun2 & Hge).
      exists (o :: pre), post, s2. simpl. rewrite Hs. auto. }
    destruct Hgrow as [Hsame|[Hdouble Hfull]].
    + exists s, k. split; [assumption|]. split; [now rewrite Hck, Hsame|].
      split; assumption.
    + exists s, (S k). split; [assumption|]. split.
      * rewrite Nat2Z.inj_succ, Z.pow_succ_r by lia. rewrite Hck, Hdouble. ring.
      * split; [assumption|]. intros _.
        destruct k as [|k]; [|apply Hlift; lia].
        exists [o], ops, s1. cbn [run app]. rewrite Hs. cbn [bind].
        split; [reflexivity|]. split; [reflexivity|]. unfold Size.
        change (2 ^ Z.of_nat 0) with 1 in Hck. lia.
Qed.

(** X9. The capacity follows the largest size reached.  Every sequence of
    fewer than [2^64] calls on a freshly constructed set of [n > 0] buckets
    ends with a capacity of [n] times a power of two; [Size] was under five
    times that capacity after every call of the sequence; and if the table
    was resized at all, [Size] was at least five times half that capacity
    after some call.  So the final capacity is the least doubling of [n]
    that keeps the largest [Size] reached under five per bucket. *)
Theorem capacity_follows_peak (n : nat) (ops : list op) :
  (0 < n)%nat ->
  Z.of_nat (length ops) < size_modulus ->
  exists s k,
    run ops (HashSetCoarseGrained n) = Some s /\
    capacity s = Z.of_nat n * 2 ^ Z.of_nat k /\
    (forall pre post, ops = pre ++ post ->
       exists s1, run pre (HashSetCoarseGrained n) = Some s1 /\
                  Size s1 < 5 * capacity s) /\
    ((0 < k)%nat ->
       exists pre post s1,
         ops = pre ++ post /\
         run pre (HashSetCoarseGrained n) = Some s1 /\
         5 * capacity s <= 2 * Size s1).
Proof using eqb_sym eqb_trans hash_eqb.
  intros Hn Hlen. pose proof (Inv_new n Hn) as HI.
  assert (Hcap0 : capacity (HashSetCoarseGrained n) = Z.of_nat n)
    by (unfold capacity; simpl; now rewrite repeat_length).
  destruct (run_growth ops _ HI) as (s & k & Hrun & Hck & Hpre & Hwit).
  - rewrite Hcap0. change (set_size_ (HashSetCoarseGrained n)) with 0. lia.
  - change (set_size_ (HashSetCoarseGrained n)) with 0. lia.
  - exists s, k. rewrite Hcap0 in Hck. auto.
Qed.

(** X10. What [Policy] tests.  On a state with at least one bucket and a
    counter that is not negative, [Policy] answers true exactly when the
    counter is at least five times the number of buckets.  So while the
    counter is above four but under five per bucket, the average bucket size
    exceeds [bucket_capacity_] and [Policy] still answers false. *)
Theorem Policy_threshold (s : HashSet) :
  0 < capacity s -> 0 <= set_size_ s ->
  (Policy s = Some true <-> 5 * capacity s <= set_size_ s) /\
  (Policy s = Some false <-> set_size_ s < 5 * capacity s) /\
  (bucket_capacity_ * capacity s < set_size_ s < 5 * capacity s ->
   Policy s = Some false).
Proof.
  intros Hcap Hsz. rewrite Policy_pos by assumption. unfold bucket_capacity_.
  assert (Hiff : 4 < set_size_ s / capacity s <-> 5 * capacity s <= set_size_ s).
  { split; intros H.
    - pose proof (Z.mul_div_le (set_size_ s) (capacity s) Hcap). nia.
    - assert (capacity s * 5 <= set_size_ s) as H' by lia.
      pose proof (Z.div_le_lower_bound _ (capacity s) 5 Hcap H'). lia. }
  destruct (4 <? set_size_ s / capacity s) eqn:Hp.
  - apply Z.ltb_lt in Hp. apply Hiff in Hp.
    repeat split; intros; try discriminate; try lia; auto.
  - apply Z.ltb_ge in Hp.
    assert (set_size_ s < 5 * capacity s) by (apply Z.nle_gt; rewrite <- Hiff; lia).
    repeat split; intros; try discriminate; try lia; auto.
Qed.

End HashSetCoarseGrained.

Arguments set_size_ {T} _.
Arguments table_ {T} _.
Arguments capacity {T} _.
Arguments elements {T} _.
Arguments Size {T} _.
Arguments Policy {T} _.
Arguments OpAdd {T} _.
Arguments OpRemove {T} _.
Arguments OpContains {T} _.
Arguments ResizeReturned {T} _.
Arguments ResizeThrew {T} _.

(** * The instance [HashSetCoarseGrained<int>]

    Elements are integers compared with [Z.eqb].  The contract of the
    element type holds for every hash function on them, since equal
    integers are the same integer. *)

Section IntSet.

Variable hash : Z -> Z.

Lemma Zeqb_sym (a b : Z) : (a =? b) = true -> (b =? a) = true.
Proof.
  rewrite !Z.eqb_eq. auto.
Qed.

Lemma Zeqb_trans (a b c : Z) :
  (a =? b) = true -> (b =? c) = true -> (a =? c) = true.
Proof.
  rewrite !Z.eqb_eq. congruence.
Qed.

Lemma Zeqb_hash (a b : Z) : (a =? b) = true -> hash a = hash b.
Proof.
  rewrite Z.eqb_eq. congruence.
Qed.

(** The integers [0], [1], ..., [k - 1]. *)
Definition first_ints (k : nat) : list Z := map Z.of_nat (seq 0 k).

Lemma ints_distinct (a k : nat) :
  NoDupA (same Z Z.eqb) (map Z.of_nat (seq a k)).
Proof.
  revert a. induction k as [|k IH]; intros a; simpl; constructor; auto.
  rewrite InA_alt. intros (y & Hs & Hy).
  apply in_map_iff in Hy as (j & <- & Hj). apply in_seq in Hj.
  unfold same in Hs. apply Z.eqb_eq in Hs. lia.
Qed.

Lemma find_in_ints (x : Z) (l : list Z) :
  find_in Z Z.eqb x l = true <-> In x l.
Proof.
  rewrite find_in_iff. split.
  - intros (y & Hy & He). apply Z.eqb_eq in He. now subst.
  - intros Hx. exists x. split; [assumption | apply Z.eqb_refl].
Qed.

Lemma size_modulus_value : size_modulus = 18446744073709551616.
Proof.
  reflexivity.
Qed.

(** Adding the first [k] integers to a fresh set of four buckets: the run
    ends, and [Contains] finds exactly those integers. *)
Lemma first_ints_members (k : nat) :
  exists s,
    run Z Z.eqb hash (map OpAdd (first_ints k)) (HashSetCoarseGrained Z 4) = Some s /\
    forall x, Contains Z Z.eqb hash s x = Some (find_in Z Z.eqb x (first_ints k)).
Proof.
  pose proof (Inv_new Z Z.eqb hash 4 ltac:(lia)) as HI.
  destruct (run_membership Z Z.eqb hash Zeqb_sym Zeqb_trans Zeqb_hash
              (map OpAdd (first_ints k)) _
              (inv_capacity _ _ _ _ HI) (inv_placed _ _ _ _ HI))
    as (s & Hrun & Hcap & Hp & _ & Hmem).
  exists s. split; [assumption|]. intros x. unfold Contains.
  rewrite (Contains_elements Z Z.eqb hash Zeqb_hash) by assumption.
  rewrite Hmem, net_adds. simpl. now rewrite orb_false_r.
Qed.

(** Up to 19 of them fit without a resize. *)
Lemma first_ints_no_resize (k : nat) :
  (k <= 19)%nat ->
  exists s,
    run Z Z.eqb hash (map OpAdd (first_ints k)) (HashSetCoarseGrained Z 4) = Some s /\
    capacity s = 4 /\ Size s = Z.of_nat k /\ Inv Z Z.eqb hash s.
Proof.
  intros Hk. pose proof (Inv_new Z Z.eqb hash 4 ltac:(lia)) as HI.
  assert (Hlen : length (first_ints k) = k)
    by (unfold first_ints; now rewrite length_map, length_seq).
  destruct (run_adds_below_threshold Z Z.eqb hash Zeqb_sym Zeqb_hash
              (first_ints k) _ HI) as (s & Hrun & Hcap & Hsz & HI').
  - unfold elements; simpl. rewrite app_nil_r. apply ints_distinct.
  - rewrite Hlen. change (0 + Z.of_nat k < 5 * 4). lia.
  - rewrite Hlen, size_modulus_value. simpl set_size_. lia.
  - exists s. rewrite Hlen in Hsz. split; [assumption|].
    split; [rewrite Hcap; reflexivity|]. split; [|assumption].
    unfold Size. rewrite Hsz. reflexivity.
Qed.

(** C6. The literal scenario, for every hash function on the integers.
    Starting from capacity 4, after the first [k] integers have been added,
    for any [k] up to 19, the capacity is still 4.  In particular after the
    17 integers 0..16: the counter is 17, the truncating quotient 17/4 is 4,
    which is not above 4, so [Policy] answers false although 17 exceeds
    4 * 4, and [Contains] returns true for each of the 17.  The first resize
    is the one of the 20th integer (20/4 = 5): the capacity is then 8 and
    all 20 integers are still found. *)
Theorem literal_resize_scenario :
  (forall k, (k <= 19)%nat ->
     exists s,
       run Z Z.eqb hash (map OpAdd (first_ints k)) (HashSetCoarseGrained Z 4) = Some s /\
       capacity s = 4 /\ Size s = Z.of_nat k) /\
  (exists s,
     run Z Z.eqb hash (map OpAdd (first_ints 17)) (HashSetCoarseGrained Z 4) = Some s /\
     capacity s = 4 /\ Size s = 17 /\
     Size s / capacity s = 4 /\ bucket_capacity_ * capacity s < Size s /\
     Policy s = Some false /\
     forall x, In x (first_ints 17) -> Contains Z Z.eqb hash s x = Some true) /\
  (exists s,
     run Z Z.eqb hash (map OpAdd (first_ints 20)) (HashSetCoarseGrained Z 4) = Some s /\
     capacity s = 8 /\ Size s = 20 /\
     forall x, In x (first_ints 20) -> Contains Z Z.eqb hash s x = Some true).
Proof.
  split; [|split].
  - intros k Hk. destruct (first_ints_no_resize k Hk) as (s & Hrun & Hc & Hs & _).
    eauto.
  - destruct (first_ints_no_resize 17 ltac:(lia)) as (s & Hrun & Hc & Hs & _).
    destruct (first_ints_members 17) as (s' & Hrun' & Hmem).
    rewrite Hrun in Hrun'. injection Hrun' as <-.
    exists s. split; [assumption|]. split; [assumption|]. split; [assumption|].
    rewrite Hs, Hc. split; [reflexivity|]. split; [reflexivity|]. split.
    + rewrite Policy_pos by lia. unfold Size in Hs. now rewrite Hs, Hc.
    + intros x Hx. rewrite Hmem. f_equal. now apply find_in_ints.
  - destruct (first_ints_no_resize 19 ltac:(lia)) as (s19 & Hrun & Hc & Hs & HI).
    destruct (first_ints_members 19) as (s' & Hrun' & Hmem19).
    rewrite Hrun in Hrun'. injection Hrun' as <-.
    destruct (first_ints_members 20) as (s20 & Hrun20 & Hmem).
    assert (Hfresh : find_in Z Z.eqb 19 (elements s19) = false).
    { pose proof (Hmem19 19) as Hc19. unfold Contains in Hc19.
      rewrite (Contains_elements Z Z.eqb hash Zeqb_hash) in Hc19
        by first [exact (inv_placed _ _ _ _ HI) | lia].
      injection Hc19 as ->. reflexivity. }
    unfold Size in Hs.
    destruct (Add_at_threshold Z Z.eqb hash Zeqb_sym Zeqb_hash s19 19 HI Hfresh)
      as (s & Ha & Hc' & Hs' & _).
    { rewrite Hc, Hs. simpl. lia. }
    { rewrite Hs, size_modulus_value. simpl. lia. }
    change (first_ints 20) with (first_ints 19 ++ [19]) in Hrun20.
    rewrite map_app, run_app, Hrun in Hrun20. simpl in Hrun20.
    rewrite Ha in Hrun20. simpl in Hrun20. injection Hrun20 as <-.
    exists s. split.
    + change (first_ints 20) with (first_ints 19 ++ [19]).
      rewrite map_app, run_app, Hrun. simpl. now rewrite Ha.
    + split; [lia|]. split; [unfold Size; rewrite Hs', Hs; reflexivity|].
      intros x Hx. rewrite Hmem. f_equal. now apply find_in_ints.
Qed.

End IntSet.

(** * Concrete runs

    [std::hash<int>] of libstdc++ and libc++ converts the integer to
    [size_t]. *)

Definition int_hash (x : Z) : Z := wrap x.

(** One bucket holding four integers, and what [Add 4] makes of it: the
    fifth element brings [5 / 1] above 4, and the table is rehashed into two
    buckets. *)
Definition one_bucket : HashSet Z :=
  {| set_size_ := 4; table_ := [[0; 1; 2; 3]] |}.

Definition one_bucket_full : HashSet Z :=
  {| set_size_ := 5; table_ := [[0; 1; 2; 3; 4]] |}.

Definition two_buckets : HashSet Z :=
  {| set_size_ := 5; table_ := [[0; 2; 4]; [1; 3]] |}.

(** Four buckets holding two integers. *)
Definition four_buckets : HashSet Z :=
  {| set_size_ := 2; table_ := [[4]; [5]; []; []] |}.

(** Allocation fails at the copy assignment only, or at the construction
    of [new_table] only. *)
Definition assign_fails (site : alloc_site) : bool :=
  match site with
  | AssignAlloc => true
  | _ => false
  end.

Definition new_table_fails (site : alloc_site) : bool :=
  match site with
  | NewTableAlloc => true
  | _ => false
  end.

Example Add_resizes :
  Add Z Z.eqb int_hash one_bucket 4 = Some (true, two_buckets).
Proof.
  reflexivity.
Qed.

Example Resize_in_between :
  Resize Z int_hash one_bucket_full = Some two_buckets.
Proof.
  reflexivity.
Qed.

Lemma membership_correct_witness :
  let ops := [OpAdd 1; OpAdd 5; OpRemove 1; OpAdd 9] in
  (0 < 4)%nat /\
  exists s b,
    run Z Z.eqb int_hash ops (HashSetCoarseGrained Z 4) = Some s /\
    Contains Z Z.eqb int_hash s 1 = Some b /\
    b = net_present Z Z.eqb 1 ops /\
    (b = true <-> added_and_kept Z Z.eqb 1 ops).
Proof.
  split; [lia|].
  apply (membership_correct Z Z.eqb int_hash Zeqb_sym Zeqb_trans (Zeqb_hash int_hash)).
  lia.
Defined.

Lemma Add_contract_witness :
  let s' := {| set_size_ := 3; table_ := [[4]; [5]; [6]; []] |} in
  0 < capacity four_buckets /\
  0 <= set_size_ four_buckets < size_modulus - 1 /\
  (forall y,
     In y (nth (home Z int_hash four_buckets 6) (table_ four_buckets) []) ->
     (y =? 6) = false) /\
  Add Z Z.eqb int_hash four_buckets 6 = Some (true, s') /\
  (exists s'',
     Add Z Z.eqb int_hash four_buckets 6 = Some (true, s'') /\
     Size s'' = Size four_buckets + 1 /\
     Permutation (elements s'') (6 :: elements four_buckets) /\
     Contains Z Z.eqb int_hash s'' 6 = Some true /\
     Add Z Z.eqb int_hash s'' 6 = Some (false, s'')) /\
  (Contains_ Z Z.eqb int_hash four_buckets 5 = Some true <->
   exists y,
     In y (nth (home Z int_hash four_buckets 5) (table_ four_buckets) []) /\
     (y =? 5) = true).
Proof.
  intros s'.
  assert (Hcap : 0 < capacity four_buckets) by reflexivity.
  assert (Hsz : 0 <= set_size_ four_buckets < size_modulus - 1)
    by (rewrite size_modulus_value; simpl; lia).
  assert (Hnone : forall y,
            In y (nth (home Z int_hash four_buckets 6) (table_ four_buckets) []) ->
            (y =? 6) = false) by (intros y []).
  split; [exact Hcap|]. split; [exact Hsz|]. split; [exact Hnone|].
  split; [reflexivity|]. split.
  - destruct (Add_contract Z Z.eqb int_hash Z.eqb_refl (Zeqb_hash int_hash)
                four_buckets 6 Hcap Hsz)
      as (_ & _ & _ & _ & _ & Habsent).
    destruct (Habsent Hnone)
      as (_ & _ & _ & _ & s'' & Ha & Hs & Hp & _ & Hc & Ha2).
    exists s''. auto.
  - exact (proj1 (proj2 (Add_contract Z Z.eqb int_hash Z.eqb_refl
                           (Zeqb_hash int_hash) four_buckets 5 Hcap Hsz))).
Defined.

Lemma Remove_contract_witness :
  let s := {| set_size_ := 4; table_ := [[4]; [1; 5; 9]; []; []] |} in
  let s' := {| set_size_ := 3; table_ := [[4]; [1; 9]; []; []] |} in
  0 < capacity s /\
  counted Z s /\
  set_size_ s < size_modulus /\
  (exists y, In y (nth (home Z int_hash s 5) (table_ s) []) /\ (y =? 5) = true) /\
  Remove Z Z.eqb int_hash s 5 = Some (true, s') /\
  (exists s'',
     Remove Z Z.eqb int_hash s 5 = Some (true, s'') /\
     nth (home Z int_hash s 5) (table_ s'') []
     = filter (fun y => negb (y =? 5)) (nth (home Z int_hash s 5) (table_ s) []) /\
     (forall j, j <> home Z int_hash s 5 ->
                nth j (table_ s'') [] = nth j (table_ s) []) /\
     capacity s'' = capacity s /\
     Size s'' = Size s - 1 /\
     Contains Z Z.eqb int_hash s'' 5 = Some false) /\
  Remove Z Z.eqb int_hash s' 5 = Some (false, s').
Proof.
  intros s s'.
  assert (Hcap : 0 < capacity s) by reflexivity.
  assert (Hn : counted Z s) by reflexivity.
  assert (Hsz : set_size_ s < size_modulus) by reflexivity.
  assert (Hin : exists y, In y (nth (home Z int_hash s 5) (table_ s) []) /\
                          (y =? 5) = true)
    by (exists 5; split; [right; left; reflexivity | reflexivity]).
  split; [exact Hcap|]. split; [exact Hn|]. split; [exact Hsz|].
  split; [exact Hin|]. split; [reflexivity|]. split.
  - destruct (Remove_contract Z Z.eqb int_hash Z.eqb_refl Zeqb_sym Zeqb_trans
                s 5 Hcap Hn Hsz)
      as (_ & _ & _ & _ & Hpresent).
    destruct (Hpresent Hin)
      as (s'' & Hrm & Hb & _ & _ & Ho & _ & Hc & Hs & Hcn).
    exists s''. auto 10.
  - assert (Hcap' : 0 < capacity s') by reflexivity.
    assert (Hn' : counted Z s') by reflexivity.
    assert (Hsz' : set_size_ s' < size_modulus) by reflexivity.
    apply (proj1 (proj2 (proj2 (Remove_contract Z Z.eqb int_hash Z.eqb_refl
                                  Zeqb_sym Zeqb_trans s' 5 Hcap' Hn' Hsz')))).
    intros y [<-|[<-|[]]]; reflexivity.
Defined.

Lemma resize_policy_witness :
  Add Z Z.eqb int_hash one_bucket 4 = Some (true, two_buckets) /\
  (capacity two_buckets = 2 * capacity one_bucket <->
   4 < set_size_ one_bucket_full / capacity one_bucket_full).
Proof.
  assert (Ha : Add Z Z.eqb int_hash one_bucket 4 = Some (true, two_buckets))
    by reflexivity.
  split; [exact Ha|].
  exact (proj1 (proj2 (proj2 (proj2 (proj2
    (resize_policy Z Z.eqb int_hash one_bucket 4 two_buckets Ha)))))).
Defined.

Lemma rehash_fidelity_witness :
  let ops := [OpAdd 1; OpAdd 5; OpRemove 1; OpAdd 9] in
  (0 < 4)%nat /\
  (exists s,
     run Z Z.eqb int_hash ops (HashSetCoarseGrained Z 4) = Some s /\
     forall i e, In e (nth i (table_ s) []) ->
                 Z.of_nat i = int_hash e mod capacity s) /\
  (forall s s', Resize Z int_hash s = Some s' ->
                Permutation (elements s') (elements s)).
Proof.
  split; [lia|].
  apply (rehash_fidelity Z Z.eqb int_hash (Zeqb_hash int_hash)). lia.
Defined.

Lemma data_model_invariants_witness :
  let ops1 := [OpAdd 1; OpAdd 5; OpAdd 1] in
  let ops2 := [OpRemove 1; OpContains 5; OpRemove 5] in
  (0 < 4)%nat /\
  Z.of_nat (length (ops1 ++ ops2)) < size_modulus /\
  exists s1 s2,
    run Z Z.eqb int_hash ops1 (HashSetCoarseGrained Z 4) = Some s1 /\
    run Z Z.eqb int_hash ops2 s1 = Some s2 /\
    run Z Z.eqb int_hash (ops1 ++ ops2) (HashSetCoarseGrained Z 4) = Some s2 /\
    NoDupA (same Z Z.eqb) (elements s2) /\
    Size s2 = Z.of_nat (list_sum (map (@length Z) (table_ s2))) /\
    Z.of_nat 4 <= capacity s1 <= capacity s2.
Proof.
  split; [lia|]. split; [reflexivity|].
  apply (data_model_invariants Z Z.eqb int_hash Zeqb_sym Zeqb_trans
           (Zeqb_hash int_hash)); [lia | reflexivity].
Defined.

Lemma resize_failure_before_clear_witness :
  new_table_fails AssignAlloc = false /\
  Resize_alloc Z int_hash new_table_fails one_bucket_full
  = ResizeThrew one_bucket_full /\
  ((Resize_alloc Z int_hash new_table_fails one_bucket_full
    = ResizeThrew one_bucket_full -> one_bucket_full = one_bucket_full) /\
   (Resize_alloc Z int_hash new_table_fails one_bucket_full
    = ResizeReturned one_bucket_full ->
    Resize Z int_hash one_bucket_full = Some one_bucket_full)).
Proof.
  split; [reflexivity|]. split; [reflexivity|].
  apply (resize_failure_before_clear Z int_hash new_table_fails). reflexivity.
Defined.

Lemma resize_frame_witness :
  0 <= set_size_ one_bucket < size_modulus - 1 /\
  Add Z Z.eqb int_hash one_bucket 4 = Some (true, two_buckets) /\
  Policy (insert_at Z one_bucket (home Z int_hash one_bucket 4) 4) = Some true /\
  (forall t t', Resize Z int_hash t = Some t' -> Size t' = Size t) /\
  Resize Z int_hash (insert_at Z one_bucket (home Z int_hash one_bucket 4) 4)
  = Some two_buckets /\
  Size two_buckets = Size one_bucket + 1 /\
  In 4 (elements two_buckets) /\
  In 4 (nth (home Z int_hash two_buckets 4) (table_ two_buckets) []).
Proof.
  assert (Hsz : 0 <= set_size_ one_bucket < size_modulus - 1)
    by (rewrite size_modulus_value; simpl; lia).
  split; [exact Hsz|]. split; [reflexivity|]. split; [reflexivity|].
  apply (resize_frame Z Z.eqb int_hash one_bucket 4 two_buckets Hsz);
    reflexivity.
Defined.

(** [max_size()] of a vector of 24-byte buckets under libstdc++ on a
    64-bit target. *)
Definition vector_max_size : Z := (2 ^ 63 - 1) / 24.

Example construct_too_large :
  construct Z vector_max_size false (wrap (-1)) = LengthError Z /\
  construct Z vector_max_size false (2 ^ 59) = LengthError Z.
Proof.
  split; reflexivity.
Qed.

Lemma constructor_contract_witness :
  0 <= 4 /\
  (construct Z vector_max_size false 4 = LengthError Z <-> vector_max_size < 4) /\
  (4 <= vector_max_size -> false = false ->
   exists s, construct Z vector_max_size false 4 = Constructed Z s) /\
  (0 <= vector_max_size ->
   construct Z vector_max_size false 0 = Constructed Z (HashSetCoarseGrained Z 0)) /\
  (forall s,
     construct Z vector_max_size false 4 = Constructed Z s ->
     Size s = 0 /\
     capacity s = 4 /\
     (forall i, nth i (table_ s) [] = []) /\
     elements s = [] /\
     (0 < capacity s <-> 0 < 4) /\
     (0 < 4 ->
      Inv Z Z.eqb int_hash s /\
      forall elem, Contains Z Z.eqb int_hash s elem = Some false)).
Proof.
  split; [lia|].
  apply (constructor_contract Z Z.eqb int_hash vector_max_size false 4). lia.
Defined.

(** C5, as the spec has it, fails: the constructor returns a set for
    capacity 0 too, and that set has no bucket, so that every call on it
    takes a remainder modulo zero. *)
Lemma constructor_accepts_zero_capacity :
  let s := HashSetCoarseGrained Z 0 in
  construct Z vector_max_size true 0 = Constructed Z s /\
  capacity s = 0 /\
  Contains Z Z.eqb int_hash s 7 = None /\
  Add Z Z.eqb int_hash s 7 = None /\
  Remove Z Z.eqb int_hash s 7 = None /\
  ~ (forall initial_capacity : nat,
       0 < capacity (HashSetCoarseGrained Z initial_capacity)) /\
  ~ (forall initial_capacity s',
       construct Z vector_max_size false initial_capacity = Constructed Z s' ->
       0 < initial_capacity).
Proof.
  repeat split.
  - intros H. specialize (H 0%nat). discriminate H.
  - intros H. specialize (H 0 (HashSetCoarseGrained Z 0) eq_refl). discriminate H.
Qed.

(** C9, as the spec has it, fails: when the copy assignment
    [table_ = new_table] cannot allocate, [table_.clear()] has already run,
    and the exception leaves a table without buckets behind, while the
    counter still says 5. *)
Lemma resize_failure_loses_table :
  Resize_alloc Z int_hash assign_fails one_bucket_full
  = ResizeThrew {| set_size_ := 5; table_ := [] |} /\
  ~ (forall fails s s',
       Resize_alloc Z int_hash fails s = ResizeThrew s' ->
       table_ s' = table_ s).
Proof.
  split; [reflexivity|].
  intros H.
  specialize (H assign_fails one_bucket_full
                {| set_size_ := 5; table_ := [] |} eq_refl).
  discriminate H.
Qed.

(** * Concrete runs of the further properties *)

Lemma fresh_placed (n : nat) : placed Z int_hash (HashSetCoarseGrained Z n).
Proof.
  apply placed_table_empty.
Qed.

Lemma one_bucket_full_placed : placed Z int_hash one_bucket_full.
Proof.
  intros [|i] e He; simpl in *.
  - apply Z.mod_1_r.
  - destruct i; destruct He.
Qed.

(** A fresh set of four buckets after [Add 6]. *)
Definition four_with_six : HashSet Z :=
  {| set_size_ := 1; table_ := [[]; []; [6]; []] |}.

Definition some_calls : list (op Z) :=
  [OpAdd 1; OpAdd 5; OpAdd 1; OpRemove 1; OpContains 5; OpRemove 9].

(** [four_buckets] after [Add 6], and after [Remove 5]. *)
Definition four_buckets_and_six : HashSet Z :=
  {| set_size_ := 3; table_ := [[4]; [5]; [6]; []] |}.

Definition four_buckets_less_five : HashSet Z :=
  {| set_size_ := 1; table_ := [[4]; []; []; []] |}.

Lemma lookup_after_update_witness :
  Add Z Z.eqb int_hash four_buckets 6 = Some (true, four_buckets_and_six) /\
  Contains Z Z.eqb int_hash four_buckets_and_six 6 = Some true /\
  Remove Z Z.eqb int_hash four_buckets 5 = Some (true, four_buckets_less_five) /\
  Contains Z Z.eqb int_hash four_buckets_less_five 5 = Some false /\
  Remove Z Z.eqb int_hash four_buckets_less_five 5
  = Some (false, four_buckets_less_five).
Proof.
  assert (Ha : Add Z Z.eqb int_hash four_buckets 6
               = Some (true, four_buckets_and_six)) by reflexivity.
  assert (Hr : Remove Z Z.eqb int_hash four_buckets 5
               = Some (true, four_buckets_less_five)) by reflexivity.
  split; [exact Ha|]. split.
  - exact (proj1 (lookup_after_update Z Z.eqb int_hash Z.eqb_refl Zeqb_sym
                    Zeqb_trans (Zeqb_hash int_hash) four_buckets 6 true
                    four_buckets_and_six) Ha).
  - split; [exact Hr|].
    exact (proj2 (lookup_after_update Z Z.eqb int_hash Z.eqb_refl Zeqb_sym
                    Zeqb_trans (Zeqb_hash int_hash) four_buckets 5 true
                    four_buckets_less_five) Hr).
Defined.

Lemma other_elements_untouched_witness :
  placed Z int_hash (HashSetCoarseGrained Z 4) /\
  (6 =? 7) = false /\
  Add Z Z.eqb int_hash (HashSetCoarseGrained Z 4) 6 = Some (true, four_with_six) /\
  Contains Z Z.eqb int_hash four_with_six 7
  = Contains Z Z.eqb int_hash (HashSetCoarseGrained Z 4) 7.
Proof.
  split; [apply fresh_placed|]. split; [reflexivity|].
  assert (Ha : Add Z Z.eqb int_hash (HashSetCoarseGrained Z 4) 6
               = Some (true, four_with_six)) by reflexivity.
  split; [exact Ha|].
  exact (proj1 (other_elements_untouched Z Z.eqb int_hash Zeqb_sym Zeqb_trans
                  (Zeqb_hash int_hash) (HashSetCoarseGrained Z 4) 6 7 true
                  four_with_six (fresh_placed 4) eq_refl) Ha).
Defined.

Lemma bucket_lookup_is_full_scan_witness :
  0 < capacity one_bucket_full /\
  placed Z int_hash one_bucket_full /\
  Contains Z Z.eqb int_hash one_bucket_full 3
  = Some (find_in Z Z.eqb 3 (elements one_bucket_full)) /\
  (Contains Z Z.eqb int_hash one_bucket_full 3 = Some true <->
   exists y, In y (elements one_bucket_full) /\ (y =? 3) = true).
Proof.
  split; [reflexivity|]. split; [exact one_bucket_full_placed|].
  apply (bucket_lookup_is_full_scan Z Z.eqb int_hash (Zeqb_hash int_hash));
    [reflexivity | exact one_bucket_full_placed].
Defined.

Lemma Resize_keeps_answers_witness :
  0 < capacity one_bucket_full /\
  capacity one_bucket_full * 2 < size_modulus /\
  placed Z int_hash one_bucket_full /\
  exists s',
    Resize Z int_hash one_bucket_full = Some s' /\
    capacity s' = 2 * capacity one_bucket_full /\
    Size s' = Size one_bucket_full /\
    forall x, Contains Z Z.eqb int_hash s' x
              = Contains Z Z.eqb int_hash one_bucket_full x.
Proof.
  split; [reflexivity|]. split; [reflexivity|].
  split; [exact one_bucket_full_placed|].
  apply (Resize_keeps_answers Z Z.eqb int_hash (Zeqb_hash int_hash));
    [reflexivity | reflexivity | exact one_bucket_full_placed].
Defined.

Lemma Add_then_Remove_witness :
  let s := HashSetCoarseGrained Z 4 in
  placed Z int_hash s /\
  0 <= set_size_ s < size_modulus /\
  Contains Z Z.eqb int_hash s 6 = Some false /\
  exists s1 s2,
    Add Z Z.eqb int_hash s 6 = Some (true, s1) /\
    Remove Z Z.eqb int_hash s1 6 = Some (true, s2) /\
    Size s2 = Size s /\
    Permutation (elements s2) (elements s) /\
    (forall x, Contains Z Z.eqb int_hash s2 x = Contains Z Z.eqb int_hash s x) /\
    (capacity s1 = capacity s -> s2 = s).
Proof.
  intros s.
  assert (Hsz : 0 <= set_size_ s < size_modulus)
    by (rewrite size_modulus_value; simpl; lia).
  split; [apply fresh_placed|]. split; [exact Hsz|]. split; [reflexivity|].
  exact (Add_then_Remove Z Z.eqb int_hash Z.eqb_refl Zeqb_sym Zeqb_trans
           (Zeqb_hash int_hash) s 6 (fresh_placed 4) Hsz eq_refl).
Defined.

Lemma refines_reference_set_witness :
  (0 < 4)%nat /\
  Z.of_nat (length some_calls) < size_modulus /\
  exists s,
    run_results Z Z.eqb int_hash some_calls (HashSetCoarseGrained Z 4)
    = Some (fst (ref_results Z Z.eqb some_calls []), s) /\
    run Z Z.eqb int_hash some_calls (HashSetCoarseGrained Z 4) = Some s /\
    Permutation (elements s) (snd (ref_results Z Z.eqb some_calls [])) /\
    Size s = Z.of_nat (length (snd (ref_results Z Z.eqb some_calls []))).
Proof.
  split; [lia|]. split; [reflexivity|].
  apply (refines_reference_set Z Z.eqb int_hash Zeqb_sym Zeqb_trans
           (Zeqb_hash int_hash)); [lia | reflexivity].
Defined.

Lemma capacity_follows_peak_witness :
  let ops := map OpAdd [0; 1; 2; 3; 4] in
  (0 < 1)%nat /\
  Z.of_nat (length ops) < size_modulus /\
  exists s k,
    run Z Z.eqb int_hash ops (HashSetCoarseGrained Z 1) = Some s /\
    capacity s = Z.of_nat 1 * 2 ^ Z.of_nat k /\
    (forall pre post, ops = pre ++ post ->
       exists s1, run Z Z.eqb int_hash pre (HashSetCoarseGrained Z 1) = Some s1 /\
                  Size s1 < 5 * capacity s) /\
    ((0 < k)%nat ->
       exists pre post s1,
         ops = pre ++ post /\
         run Z Z.eqb int_hash pre (HashSetCoarseGrained Z 1) = Some s1 /\
         5 * capacity s <= 2 * Size s1).
Proof.
  split; [lia|]. split; [reflexivity|].
  apply (capacity_follows_peak Z Z.eqb int_hash Zeqb_sym Zeqb_trans
           (Zeqb_hash int_hash)); [lia | reflexivity].
Defined.

Lemma Policy_threshold_witness :
  0 < capacity one_bucket_full /\
  0 <= set_size_ one_bucket_full /\
  (Policy one_bucket_full = Some true <->
   5 * capacity one_bucket_full <= set_size_ one_bucket_full) /\
  (Policy one_bucket_full = Some false <->
   set_size_ one_bucket_full < 5 * capacity one_bucket_full) /\
  (bucket_capacity_ * capacity one_bucket_full < set_size_ one_bucket_full
   < 5 * capacity one_bucket_full ->
   Policy one_bucket_full = Some false).
Proof.
  assert (Hsz : 0 <= set_size_ one_bucket_full) by (simpl; lia).
  split; [reflexivity|]. split; [exact Hsz|].
  exact (Policy_threshold Z one_bucket_full eq_refl Hsz).
Defined.

(** The run of [some_calls], call by call. *)
Example some_calls_results :
  fst (ref_results Z Z.eqb some_calls [])
  = [true; true; false; true; true; false] /\
  snd (ref_results Z Z.eqb some_calls []) = [5].
Proof.
  split; reflexivity.
Qed.
